(** * createToml/getPermissions.py: command and alias permission lines

    The script reads two JSON files, builds an alias index from the
    command records, a command-to-node map from the permission records,
    and prints one line [name = "node"] per command and alias.

    Conventions of the embedding.
    - A Python [str] is a [string]; each character stands for one code
      point below 256, so [len] is [String.length] and [<] on [str] is
      the lexicographic order of [String.compare].
    - A record field is a JSON string or JSON null ([field]), as in the
      data model of the specification; a record is a JSON array of fields
      of any arity ([list field]).  Other JSON values and the reading of
      the files are outside the embedding.
    - A [dict] is a [gmap]; only lookup, membership and key iteration are
      used by the script, never the insertion order.
    - [set(...)] iterates in an order that depends on the hash seed.  The
      function [run] fixes one order; the relation [executes] allows every
      order, and the two are shown to agree.
    - An uncaught exception ends the run: [raised] holds it and [printed]
      holds what was printed before. *)

From stdpp Require Import gmap strings list sorting.
From Stdlib Require Import Ascii String.

Local Open Scope string_scope.
Local Open Scope list_scope.

(** ** Python values and builtins *)

(** A field of a record: [None] is JSON null, [Some s] a JSON string. *)
Definition field : Type := option string.

(** Truth value of a field, as [not x] tests it: null and the empty
    string are false. *)
Definition truthy (x : field) : bool :=
  match x with
  | None => false
  | Some s => negb (String.eqb s "")
  end.

Inductive exn : Type :=
  | ValueError   (* tuple unpacking of a record of the wrong arity *)
  | KeyError.    (* subscript of a dict at a missing key *)

Inductive result (A : Type) : Type :=
  | Ok (a : A)
  | Raise (e : exn).
Arguments Ok {A} a.
Arguments Raise {A} e.

Global Instance exn_eq_dec : EqDecision exn.
Proof. solve_decision. Defined.

(** [str.isspace] on one code point below 256. *)
Definition isspace (a : ascii) : bool :=
  let n := nat_of_ascii a in
  (((9 <=? n) && (n <=? 13)) || ((28 <=? n) && (n <=? 32))
   || (n =? 133) || (n =? 160))%nat.

(** [s.split(sep)] for a one-character separator. *)
Fixpoint split (sep : ascii) (s : string) : list string :=
  match s with
  | EmptyString => [EmptyString]
  | String a s' =>
      if Ascii.eqb a sep then EmptyString :: split sep s'
      else match split sep s' with
           | p :: ps => String a p :: ps
           | [] => [String a EmptyString]
           end
  end.

Fixpoint lstrip (s : string) : string :=
  match s with
  | EmptyString => EmptyString
  | String a s' => if isspace a then lstrip s' else s
  end.

Fixpoint rstrip (s : string) : string :=
  match s with
  | EmptyString => EmptyString
  | String a s' =>
      match rstrip s' with
      | EmptyString => if isspace a then EmptyString else String a EmptyString
      | r => String a r
      end
  end.

(** [s.strip()] *)
Definition strip (s : string) : string := rstrip (lstrip s).

(** [sorted(xs)] on strings. *)
Definition sorted (xs : list string) : list string := merge_sort String.le xs.

(** The strict order [<] of [str]. *)
Definition str_lt (s1 s2 : string) : Prop := String.ltb s1 s2 = true.

(** The double quote character. *)
Definition dquote : string := String (ascii_of_nat 34) EmptyString.

(** [f'{c} = "{node}"'] *)
Definition format_line (c node : string) : string :=
  c +:+ " = " +:+ dquote +:+ node +:+ dquote.

(** ** The three loops *)

(** A [for] loop over records whose body may raise. *)
Fixpoint for_each {S R : Type} (body : S → R → result S) (st : S) (rs : list R)
  : result S :=
  match rs with
  | [] => Ok st
  | r :: rs' =>
      match body st r with
      | Ok st' => for_each body st' rs'
      | Raise e => Raise e
      end
  end.

(** [[i.strip() for i in rawAliases.split(",")]] *)
Definition alias_list (rawAliases : string) : list string :=
  strip <$> split "," rawAliases.

(** Body of the loop over the command records. *)
Definition aliases_body (ALIASES : gmap field (list string)) (r : list field)
  : result (gmap field (list string)) :=
  match r with
  | [pl; cmd; rawAliases; desc; helpText] =>
      if truthy rawAliases then
        match rawAliases with
        | Some raw => Ok (<[cmd := alias_list raw]> ALIASES)
        | None => Ok ALIASES   (* not reached: null is false *)
        end
      else Ok ALIASES
  | _ => Raise ValueError
  end.

Definition build_aliases (commands_json : list (list field))
  : result (gmap field (list string)) :=
  for_each aliases_body ∅ commands_json.

(** Body of the loop over the permission records.  Past the guard [cmd]
    and [node] are non-empty strings, so the map is keyed by strings and
    holds strings. *)
Definition commands_body (ALIASES : gmap field (list string))
    (commands : gmap string string) (r : list field)
  : result (gmap string string) :=
  match r with
  | [pl; cmd; node; desc] =>
      if negb (truthy cmd) || negb (truthy node) then Ok commands
      else
        match cmd, node with
        | Some c, Some n =>
            let commands1 :=
              if bool_decide (commands !! c = None)
                 && bool_decide (is_Some (ALIASES !! Some c))
              then <[c := n]> commands else commands in
            match commands1 !! c with
            | Some old =>
                if (String.length n <? String.length old)%nat
                then Ok (<[c := n]> commands1) else Ok commands1
            | None => Ok commands1
            end
        | _, _ => Ok commands   (* not reached: null is false *)
        end
  | _ => Raise ValueError
  end.

Definition build_commands (ALIASES : gmap field (list string))
    (permissions_json : list (list field)) : result (gmap string string) :=
  for_each (commands_body ALIASES) ∅ permissions_json.

(** What a run leaves behind: the [(c, node)] pairs printed, in order,
    and the uncaught exception, if any. *)
Record outcome : Type := Outcome {
  printed : list (string * string);
  raised : option exn
}.

(** The text on standard output, one string per [print]. *)
Definition stdout (o : outcome) : list string :=
  (λ e, format_line e.1 e.2) <$> printed o.

(** The inner loop for one command, given the iteration order of the set
    [{cmd, *ALIASES[cmd]}]. *)
Definition group (node : string) (order : list string) : list (string * string) :=
  (λ c, (c, node)) <$> sorted order.

(** The output loop over the sorted command names, with the set
    [{cmd, *ALIASES[cmd]}] iterated in list order. *)
Fixpoint emit (ALIASES : gmap field (list string)) (commands : gmap string string)
    (cmds : list string) : outcome :=
  match cmds with
  | [] => Outcome [] None
  | cmd :: cmds' =>
      match commands !! cmd with
      | None => Outcome [] (Some KeyError)
      | Some node =>
          match ALIASES !! Some cmd with
          | None => Outcome [] (Some KeyError)
          | Some al =>
              let rest := emit ALIASES commands cmds' in
              Outcome (group node (remove_dups (cmd :: al)) ++ printed rest)
                      (raised rest)
          end
      end
  end.

(** The keys of a dict, as [set(commands)] receives them. *)
Definition keys (commands : gmap string string) : list string :=
  (map_to_list commands).*1.

Record input : Type := Input {
  commands_json : list (list field);
  permissions_json : list (list field)
}.

(** The whole script, with [set] iterating in list order. *)
Definition run (i : input) : outcome :=
  match build_aliases (commands_json i) with
  | Raise e => Outcome [] (Some e)
  | Ok ALIASES =>
      match build_commands ALIASES (permissions_json i) with
      | Raise e => Outcome [] (Some e)
      | Ok commands => emit ALIASES commands (sorted (remove_dups (keys commands)))
      end
  end.


(** ** Iteration order of sets *)

(** [order] is a way to iterate over [set(elems)]: every member once. *)
Definition set_iteration (elems order : list string) : Prop :=
  NoDup order ∧ list_to_set order =@{gset string} list_to_set elems.

(** The output loop, whatever the order in which each set iterates. *)
Inductive emits (ALIASES : gmap field (list string)) (commands : gmap string string)
  : list string → outcome → Prop :=
  | emits_done :
      emits ALIASES commands [] (Outcome [] None)
  | emits_no_node cmd cmds :
      commands !! cmd = None →
      emits ALIASES commands (cmd :: cmds) (Outcome [] (Some KeyError))
  | emits_no_aliases cmd cmds node :
      commands !! cmd = Some node →
      ALIASES !! Some cmd = None →
      emits ALIASES commands (cmd :: cmds) (Outcome [] (Some KeyError))
  | emits_group cmd cmds node al order rest :
      commands !! cmd = Some node →
      ALIASES !! Some cmd = Some al →
      set_iteration (cmd :: al) order →
      emits ALIASES commands cmds rest →
      emits ALIASES commands (cmd :: cmds)
            (Outcome (group node order ++ printed rest) (raised rest)).

(** The whole script, whatever the order in which each set iterates. *)
Inductive executes (i : input) : outcome → Prop :=
  | executes_bad_command e :
      build_aliases (commands_json i) = Raise e →
      executes i (Outcome [] (Some e))
  | executes_bad_permission ALIASES e :
      build_aliases (commands_json i) = Ok ALIASES →
      build_commands ALIASES (permissions_json i) = Raise e →
      executes i (Outcome [] (Some e))
  | executes_output ALIASES commands order o :
      build_aliases (commands_json i) = Ok ALIASES →
      build_commands ALIASES (permissions_json i) = Ok commands →
      set_iteration (keys commands) order →
      emits ALIASES commands (sorted order) o →
      executes i o.

(** ** Vocabulary of the statements *)

(** The non-empty nodes of the permission records of command [c], in the
    order of the records. *)
Definition nodes_for (c : string) (perms : list (list field)) : list string :=
  omap (λ r, match r with
             | [pl; Some c'; Some n; desc] =>
                 if bool_decide (c' = c) && negb (String.eqb n "")
                 then Some n else None
             | _ => None
             end) perms.

(** A record of the command list that stores an alias list for [cmd]. *)
Definition stores_aliases (cmd : field) (r : list field) : bool :=
  match r with
  | [pl; cmd'; raw; desc; helpText] => bool_decide (cmd' = cmd) && truthy raw
  | _ => false
  end.

(** Every character is white space. *)
Fixpoint blank (s : string) : bool :=
  match s with
  | EmptyString => true
  | String a s' => isspace a && blank s'
  end.

(** The character occurs in the string. *)
Fixpoint occurs (a : ascii) (s : string) : bool :=
  match s with
  | EmptyString => false
  | String b s' => Ascii.eqb b a || occurs a s'
  end.

(** [sep.join(pieces)] for a one-character separator. *)
Fixpoint join (sep : ascii) (pieces : list string) : string :=
  match pieces with
  | [] => EmptyString
  | [p] => p
  | p :: ps => p +:+ String sep (join sep ps)
  end.

(** Every character is white space or a comma. *)
Fixpoint blank_or_commas (s : string) : bool :=
  match s with
  | EmptyString => true
  | String a s' => (isspace a || Ascii.eqb a ",") && blank_or_commas s'
  end.

(** One group of the output: a command, its node and the names printed. *)
Record block : Type := Block {
  block_cmd : string;
  block_node : string;
  block_names : list string
}.

(** The lines of one group: its names in order, each with the node. *)
Definition lines_of (g : block) : list (string * string) :=
  (λ c, (c, block_node g)) <$> block_names g.

(** The group that the output loop prints for a command of both maps. *)
Definition group_of (ALIASES : gmap field (list string))
    (commands : gmap string string) (cmd : string) : block :=
  Block cmd (default "" (commands !! cmd))
        (sorted (remove_dups (cmd :: default [] (ALIASES !! Some cmd)))).

(** What one permission record with non-empty [c] and [n] does to the
    entry of [c], in one step. *)
Definition upsert (ALIASES : gmap field (list string))
    (commands : gmap string string) (c n : string) : gmap string string :=
  match commands !! c with
  | None => if bool_decide (is_Some (ALIASES !! Some c))
            then <[c := n]> commands else commands
  | Some old => if (String.length n <? String.length old)%nat
                then <[c := n]> commands else commands
  end.

(** The same on the entry alone: [known] says whether the command is in
    the alias index. *)
Definition keep_shorter (known : bool) (cur : option string) (n : string)
  : option string :=
  match cur with
  | None => if known then Some n else None
  | Some old => if (String.length n <? String.length old)%nat
                then Some n else Some old
  end.

(** The example of the specification. *)
Definition spec_example : input :=
  Input [[Some "any"; Some "ban"; Some "b, banish"; Some "desc"; Some "help"]]
        [[Some "any"; Some "ban"; Some "group.mod.ban"; Some "desc"];
         [Some "any"; Some "ban"; Some "mod.ban"; Some "desc"]].

(** A command with an empty name. *)
Definition empty_name_example : input :=
  Input [[Some "any"; Some ""; Some "x"; Some "desc"; Some "help"]]
        [[Some "any"; Some ""; Some "node.x"; Some "desc"]].

(** A command without aliases that is an alias of another command. *)
Definition shared_name_example : input :=
  Input [[Some "any"; Some "tp"; Some ""; Some "desc"; Some "help"];
         [Some "any"; Some "teleport"; Some "tp"; Some "desc"; Some "help"]]
        [[Some "any"; Some "tp"; Some "warp.tp"; Some "desc"];
         [Some "any"; Some "teleport"; Some "warp.teleport"; Some "desc"]].

(** A command whose alias field is a single space. *)
Definition blank_alias_example : input :=
  Input [[Some "any"; Some "kick"; Some " "; Some "desc"; Some "help"]]
        [[Some "any"; Some "kick"; Some "mod.kick"; Some "desc"]].

(** A command whose alias field ends with a comma. *)
Definition trailing_comma_example : input :=
  Input [[Some "any"; Some "kick"; Some "a,"; Some "desc"; Some "help"]]
        [[Some "any"; Some "kick"; Some "mod.kick"; Some "desc"]].


(** A command with a blank alias field and a later record of the same
    name with an alias. *)
Definition overridden_blank_example : input :=
  Input [[Some "any"; Some "kick"; Some " "; Some "desc"; Some "help"];
         [Some "any"; Some "kick"; Some "k"; Some "desc"; Some "help"]]
        [[Some "any"; Some "kick"; Some "mod.kick"; Some "desc"]].

(** The number of occurrences of a character in a string. *)
Fixpoint count_char (a : ascii) (s : string) : nat :=
  match s with
  | EmptyString => 0
  | String b s' => (if Ascii.eqb b a then 1 else 0) + count_char a s'
  end.

(** A permission record of the right arity that the loop passes over:
    its command or node is null or empty, or its command has no entry in
    the alias index. *)
Definition ignored (ALIASES : gmap field (list string)) (r : list field) : bool :=
  match r with
  | [pl; cmd; node; desc] =>
      negb (truthy cmd && truthy node) || negb (bool_decide (is_Some (ALIASES !! cmd)))
  | _ => false
  end.

(** ** Order and sorting *)

Lemma str_lt_le_ne (s1 s2 : string) : str_lt s1 s2 ↔ String.le s1 s2 ∧ s1 ≠ s2.
Proof.
  unfold str_lt, String.le, String.ltb, String.leb.
  destruct (String.compare s1 s2) eqn:Hc; simpl.
  - apply String.compare_eq_iff in Hc. subst.
    split; [done|]. intros [_ Hne]. by destruct Hne.
  - split; [intros _|done]. split; [done|]. intros ->.
    assert (String.le s2 s2) as Hr by reflexivity.
    unfold String.le, String.leb in Hr. rewrite String.compare_antisym in Hc.
    destruct (String.compare s2 s2); simpl in *; congruence.
  - split; [done|]. by intros [Hle _].
Qed.

Lemma sorted_Permutation (l : list string) : sorted l ≡ₚ l.
Proof. apply merge_sort_Permutation. Qed.

Lemma sorted_StronglySorted (l : list string) : StronglySorted String.le (sorted l).
Proof. apply StronglySorted_merge_sort; apply _. Qed.

Lemma elem_of_sorted (l : list string) (x : string) : x ∈ sorted l ↔ x ∈ l.
Proof. by rewrite sorted_Permutation. Qed.

Lemma sorted_perm_eq (l1 l2 : list string) : l1 ≡ₚ l2 → sorted l1 = sorted l2.
Proof.
  intros Hp. apply (StronglySorted_unique String.le);
    [apply sorted_StronglySorted..|].
  by rewrite !sorted_Permutation.
Qed.

Lemma StronglySorted_strict (l : list string) :
  NoDup l → StronglySorted String.le l → StronglySorted str_lt l.
Proof.
  induction 1 as [|x l Hx Hnd IH]; intros Hs; [constructor|].
  apply StronglySorted_inv in Hs as [Hs Hall]. constructor; [by apply IH|].
  rewrite Forall_forall in Hall |- *. intros y Hy.
  apply str_lt_le_ne. split; [by apply Hall|]. intros ->. done.
Qed.

Lemma sorted_strict (l : list string) : NoDup l → StronglySorted str_lt (sorted l).
Proof.
  intros Hnd. apply StronglySorted_strict; [|apply sorted_StronglySorted].
  by rewrite sorted_Permutation.
Qed.

Lemma StronglySorted_str_lt_NoDup (l : list string) : StronglySorted str_lt l → NoDup l.
Proof.
  induction 1 as [|x l Hs IH Hall]; constructor; [|done].
  intros Hx. rewrite Forall_forall in Hall. apply Hall in Hx.
  apply str_lt_le_ne in Hx. by destruct Hx as [_ Hne].
Qed.

Lemma set_iteration_elem_of (elems order : list string) (x : string) :
  set_iteration elems order → x ∈ order ↔ x ∈ elems.
Proof.
  intros [_ Heq]. rewrite <-(elem_of_list_to_set (C:=gset string) x order), Heq.
  apply elem_of_list_to_set.
Qed.

Lemma set_iteration_remove_dups (elems : list string) :
  set_iteration elems (remove_dups elems).
Proof.
  split; [apply NoDup_remove_dups|]. apply set_eq. intros x.
  by rewrite !elem_of_list_to_set, elem_of_remove_dups.
Qed.

Lemma set_iteration_perm (elems o1 o2 : list string) :
  set_iteration elems o1 → set_iteration elems o2 → o1 ≡ₚ o2.
Proof.
  intros H1 H2. apply NoDup_Permutation; [apply H1|apply H2|].
  intros x. by rewrite (set_iteration_elem_of _ _ _ H1), (set_iteration_elem_of _ _ _ H2).
Qed.

Lemma set_iteration_sorted (elems order : list string) :
  set_iteration elems order → sorted order = sorted (remove_dups elems).
Proof.
  intros H. apply sorted_perm_eq, (set_iteration_perm elems); [done|].
  apply set_iteration_remove_dups.
Qed.

(** ** Splitting and trimming *)

Lemma split_not_nil (sep : ascii) (s : string) : split sep s ≠ [].
Proof.
  induction s as [|a s IH]; simpl; [done|].
  destruct (Ascii.eqb a sep); [done|]. by destruct (split sep s).
Qed.

Lemma join_cons (sep : ascii) (p : string) (ps : list string) :
  ps ≠ [] → join sep (p :: ps) = p +:+ String sep (join sep ps).
Proof. by destruct ps. Qed.

(** Joining the pieces with the separator gives the string back. *)
Lemma join_split (sep : ascii) (s : string) : join sep (split sep s) = s.
Proof.
  induction s as [|a s IH]; [done|]. cbn [split].
  destruct (Ascii.eqb_spec a sep) as [->|Hne].
  - rewrite join_cons by apply split_not_nil. by rewrite IH.
  - destruct (split sep s) as [|p ps] eqn:Hsp; [by apply split_not_nil in Hsp|].
    destruct ps as [|q ps]; [simpl in *; by rewrite IH|].
    rewrite join_cons in IH |- * by done. by rewrite <-IH.
Qed.

(** No piece holds the separator. *)
Lemma split_no_sep (sep : ascii) (s : string) :
  Forall (λ p, occurs sep p = false) (split sep s).
Proof.
  induction s as [|a s IH]; simpl; [by repeat constructor|].
  destruct (Ascii.eqb a sep) eqn:Ha; [by constructor|].
  destruct (split sep s) as [|p ps]; [by repeat constructor; simpl; rewrite Ha|].
  apply Forall_cons in IH as [Hp Hps]. constructor; [|done].
  simpl. by rewrite Ha, Hp.
Qed.

Lemma lstrip_blank (s : string) : blank s = true → lstrip s = "".
Proof.
  induction s as [|a s IH]; simpl; [done|].
  intros [Ha Hs]%andb_true_iff. rewrite Ha. by apply IH.
Qed.

Lemma strip_blank (s : string) : blank s = true → strip s = "".
Proof. intros H. unfold strip. by rewrite lstrip_blank. Qed.

Lemma append_cons (a : ascii) (s t : string) :
  String a s +:+ t = String a (s +:+ t).
Proof. done. Qed.

(** [lstrip] drops a blank prefix and stops at the first other character. *)
Lemma lstrip_spec (s : string) :
  ∃ l, s = l +:+ lstrip s ∧ blank l = true ∧ lstrip (lstrip s) = lstrip s.
Proof.
  induction s as [|a s (l & Hl & Hb & Hi)]; [by exists ""|]. cbn [lstrip].
  destruct (isspace a) eqn:Ha.
  - exists (String a l). rewrite append_cons, <-Hl. cbn [blank]. by rewrite Ha, Hb.
  - exists "". cbn [lstrip]. by rewrite Ha.
Qed.

(** [rstrip] drops a blank suffix and stops at the last other character. *)
Lemma rstrip_spec (s : string) :
  ∃ r, s = rstrip s +:+ r ∧ blank r = true ∧ rstrip (rstrip s) = rstrip s.
Proof.
  induction s as [|a s (r & Hr & Hb & Hi)]; [by exists ""|]. cbn [rstrip].
  destruct (rstrip s) as [|b t] eqn:Hs.
  - destruct (isspace a) eqn:Ha.
    + exists (String a r). cbn [blank]. rewrite Ha, Hb. by rewrite Hr at 1.
    + exists r. rewrite append_cons, <-Hr. cbn [rstrip]. by rewrite Ha.
  - exists r. rewrite append_cons, <-Hr. repeat split; [done|].
    change (rstrip (String a (String b t)))
      with (match rstrip (String b t) with
            | "" => if isspace a then "" else String a ""
            | r' => String a r'
            end).
    by rewrite Hi.
Qed.

Lemma rstrip_head (a : ascii) (s : string) :
  isspace a = false → ∃ t, rstrip (String a s) = String a t.
Proof. intros Ha. simpl. rewrite Ha. destruct (rstrip s); eauto. Qed.

(** [strip] removes blank text at both ends and leaves none there. *)
Lemma strip_spec (s : string) :
  ∃ l r, s = l +:+ strip s +:+ r ∧ blank l = true ∧ blank r = true ∧
         lstrip (strip s) = strip s ∧ rstrip (strip s) = strip s.
Proof.
  unfold strip.
  destruct (lstrip_spec s) as (l & Hl & Hbl & Hi).
  destruct (rstrip_spec (lstrip s)) as (r & Hr & Hbr & Hj).
  exists l, r. repeat split; [by rewrite <-Hr|done..| |done].
  destruct (lstrip s) as [|a t] eqn:Hs; [done|].
  simpl in Hi. destruct (isspace a) eqn:Ha.
  - exfalso. clear -Hi. assert (∀ u, String.length (lstrip u) ≤ String.length u)%nat
      as Hlen by (induction u as [|b u IH]; simpl; [lia|destruct (isspace b); simpl; lia]).
    specialize (Hlen t). rewrite Hi in Hlen. simpl in Hlen. lia.
  - destruct (rstrip_head a t Ha) as (u & ->). simpl. by rewrite Ha.
Qed.

Lemma split_blank_or_commas (s : string) :
  blank_or_commas s = true → Forall (λ p, blank p = true) (split "," s).
Proof.
  induction s as [|a s IH]; simpl; [by repeat constructor|].
  intros [Ha Hs]%andb_true_iff. specialize (IH Hs).
  destruct (Ascii.eqb a ",") eqn:Hc; [by constructor|].
  rewrite orb_false_r in Ha.
  destruct (split "," s) as [|p ps]; [by repeat constructor; simpl; rewrite Ha|].
  apply Forall_cons in IH as [Hp Hps]. constructor; [|done].
  simpl. by rewrite Ha, Hp.
Qed.

(** An alias field of white space and commas gives only empty aliases. *)
Lemma alias_list_blank (raw : string) :
  blank_or_commas raw = true →
  alias_list raw ≠ [] ∧ ∀ a, a ∈ alias_list raw → a = "".
Proof.
  intros Hraw. unfold alias_list. split.
  - intros Hnil%fmap_nil_inv. by apply split_not_nil in Hnil.
  - intros a (p & -> & Hp)%list_elem_of_fmap. apply strip_blank.
    pose proof (split_blank_or_commas raw Hraw) as Hall.
    rewrite Forall_forall in Hall. by apply Hall.
Qed.

(** ** Loops *)

Lemma for_each_app {S R : Type} (body : S → R → result S) (st : S) (l1 l2 : list R) :
  for_each body st (l1 ++ l2) =
  match for_each body st l1 with
  | Ok st1 => for_each body st1 l2
  | Raise e => Raise e
  end.
Proof.
  revert st. induction l1 as [|r l1 IH]; intros st; simpl; [done|].
  destruct (body st r); [apply IH|done].
Qed.

Lemma for_each_inv {S R : Type} (P : S → Prop) (body : S → R → result S)
    (st st' : S) (rs : list R) :
  (∀ s r s', P s → body s r = Ok s' → P s') →
  P st → for_each body st rs = Ok st' → P st'.
Proof.
  intros Hstep. revert st. induction rs as [|r rs IH]; intros st HP; simpl.
  - by intros [= <-].
  - destruct (body st r) as [st1|e] eqn:Hb; [|done]. eauto.
Qed.

Lemma for_each_Raise {S R : Type} (body : S → R → result S) (e : exn)
    (st : S) (rs : list R) (bad : R) :
  (∀ s r e', body s r = Raise e' → e' = e) →
  (∀ s, body s bad = Raise e) →
  bad ∈ rs → for_each body st rs = Raise e.
Proof.
  intros Hone Hbad. revert st. induction rs as [|r rs IH]; intros st Hin.
  - by apply elem_of_nil in Hin.
  - simpl. destruct (body st r) as [st1|e'] eqn:Hb.
    + apply elem_of_cons in Hin as [->|Hin]; [|by apply IH].
      by rewrite Hbad in Hb.
    + f_equal. by eapply Hone.
Qed.

(** ** The alias index *)

Lemma truthy_Some (x : field) : truthy x = true ↔ ∃ s, x = Some s ∧ s ≠ "".
Proof.
  destruct x as [s|]; simpl.
  - rewrite negb_true_iff, String.eqb_neq.
    split; [by eauto|]. by intros (s' & [= <-] & Hs').
  - split; [done|]. by intros (s & [=] & _).
Qed.

Lemma stores_aliases_true (cmd : field) (r : list field) :
  stores_aliases cmd r = true ↔
  ∃ pl raw desc helpText, r = [pl; cmd; Some raw; desc; helpText] ∧ raw ≠ "".
Proof.
  split.
  - unfold stores_aliases. repeat (destruct r as [|? r]; try done).
    rewrite andb_true_iff, bool_decide_eq_true, truthy_Some.
    intros [-> (raw & -> & Hraw)]. by repeat eexists.
  - intros (pl & raw & desc & helpText & -> & Hraw). unfold stores_aliases.
    rewrite andb_true_iff, bool_decide_eq_true, truthy_Some. eauto.
Qed.

Lemma aliases_body_Raise (A : gmap field (list string)) (r : list field) (e : exn) :
  aliases_body A r = Raise e → e = ValueError.
Proof.
  unfold aliases_body.
  repeat (destruct r as [|? r]; try by intros [= <-]).
  by repeat case_match.
Qed.

Lemma aliases_body_short (A : gmap field (list string)) (r : list field) :
  List.length r ≠ 5 → aliases_body A r = Raise ValueError.
Proof.
  intros Hlen. unfold aliases_body.
  by repeat (destruct r as [|? r]; try done).
Qed.

Lemma aliases_body_store (A : gmap field (list string)) (pl cmd desc helpText : field)
    (raw : string) :
  raw ≠ "" →
  aliases_body A [pl; cmd; Some raw; desc; helpText] = Ok (<[cmd := alias_list raw]> A).
Proof.
  intros Hraw. unfold aliases_body.
  assert (truthy (Some raw) = true) as -> by (apply truthy_Some; eauto). done.
Qed.

Lemma aliases_body_other (A A' : gmap field (list string)) (r : list field) (cmd : field) :
  stores_aliases cmd r = false → aliases_body A r = Ok A' → A' !! cmd = A !! cmd.
Proof.
  unfold aliases_body, stores_aliases.
  repeat (destruct r as [|? r]; try done).
  destruct (truthy f1) eqn:Ht; [|by intros _ [= <-]].
  destruct f1 as [raw|]; [|by intros _ [= <-]].
  rewrite andb_true_r, bool_decide_eq_false. intros Hne [= <-].
  by apply lookup_insert_ne.
Qed.

Lemma build_aliases_last (pre post : list (list field)) (pl cmd desc helpText : field)
    (raw : string) (A : gmap field (list string)) :
  raw ≠ "" →
  (∀ r, r ∈ post → stores_aliases cmd r = false) →
  build_aliases (pre ++ [pl; cmd; Some raw; desc; helpText] :: post) = Ok A →
  A !! cmd = Some (alias_list raw).
Proof.
  intros Hraw Hpost. unfold build_aliases. rewrite for_each_app.
  destruct (for_each aliases_body ∅ pre) as [A1|]; [|done].
  cbn [for_each]. rewrite aliases_body_store by done.
  generalize (lookup_insert_eq A1 cmd (alias_list raw)).
  generalize (<[cmd:=alias_list raw]> A1). clear A1.
  induction post as [|r post IH]; intros A2 HA2; simpl.
  - by intros [= <-].
  - destruct (aliases_body A2 r) as [A3|] eqn:Hb; [|done].
    apply IH; [intros r' Hr'; apply Hpost; by right|].
    erewrite aliases_body_other; [done| |done]. apply Hpost. by left.
Qed.

Lemma build_aliases_known (cmds : list (list field)) (cmd : field)
    (A : gmap field (list string)) :
  build_aliases cmds = Ok A →
  is_Some (A !! cmd) ↔ ∃ r, r ∈ cmds ∧ stores_aliases cmd r = true.
Proof.
  unfold build_aliases.
  assert (∀ A0, for_each aliases_body A0 cmds = Ok A →
    is_Some (A !! cmd) ↔
    is_Some (A0 !! cmd) ∨ ∃ r, r ∈ cmds ∧ stores_aliases cmd r = true)
    as Hgen.
  { induction cmds as [|r cmds IH]; intros A0; simpl.
    - intros [= <-]. split; [by left|]. intros [?|(r & Hr & _)]; [done|].
      by apply elem_of_nil in Hr.
    - destruct (aliases_body A0 r) as [A1|] eqn:Hb; [|done]. intros HA.
      rewrite (IH _ HA). clear IH HA.
      destruct (stores_aliases cmd r) eqn:Hs.
      + split; [|intros _].
        * intros _. right. exists r. split; [by left|done].
        * left. apply stores_aliases_true in Hs
            as (pl & raw & desc & helpText & -> & Hraw).
          rewrite aliases_body_store in Hb by done. injection Hb as <-.
          rewrite lookup_insert_eq. eauto.
      + rewrite (aliases_body_other _ _ _ _ Hs Hb).
        split.
        * intros [?|(r' & Hr' & Hs')]; [by left|]. right. exists r'.
          split; [by right|done].
        * intros [?|(r' & Hr' & Hs')]; [by left|].
          apply elem_of_cons in Hr' as [->|Hr']; [congruence|]. right. eauto. }
  intros HA. rewrite (Hgen _ HA), lookup_empty.
  split; [intros [[? ?]|?]; done|by right].
Qed.

(** ** The command-to-node map *)

Lemma commands_body_Raise (A : gmap field (list string)) (M : gmap string string)
    (r : list field) (e : exn) :
  commands_body A M r = Raise e → e = ValueError.
Proof.
  unfold commands_body.
  repeat (destruct r as [|? r]; try by intros [= <-]).
  by repeat case_match.
Qed.

Lemma commands_body_short (A : gmap field (list string)) (M : gmap string string)
    (r : list field) :
  List.length r ≠ 4 → commands_body A M r = Raise ValueError.
Proof.
  intros Hlen. unfold commands_body.
  by repeat (destruct r as [|? r]; try done).
Qed.

Lemma commands_body_skip (A : gmap field (list string)) (M : gmap string string)
    (pl cmd node desc : field) :
  truthy cmd && truthy node = false →
  commands_body A M [pl; cmd; node; desc] = Ok M.
Proof.
  intros Hf. unfold commands_body.
  by destruct (truthy cmd), (truthy node).
Qed.

Lemma commands_body_upsert (A : gmap field (list string)) (M : gmap string string)
    (pl desc : field) (c n : string) :
  c ≠ "" → n ≠ "" →
  commands_body A M [pl; Some c; Some n; desc] = Ok (upsert A M c n).
Proof.
  intros Hc Hn. unfold commands_body, upsert.
  assert (truthy (Some c) = true) as -> by (apply truthy_Some; eauto).
  assert (truthy (Some n) = true) as -> by (apply truthy_Some; eauto).
  cbn [negb orb]. destruct (M !! c) as [old|] eqn:HM.
  - rewrite bool_decide_eq_false_2 by done. cbn [andb]. rewrite HM.
    by destruct (_ <? _)%nat.
  - rewrite bool_decide_eq_true_2 by done. cbn [andb].
    destruct (bool_decide (is_Some (A !! Some c))).
    + rewrite lookup_insert_eq, Nat.ltb_irrefl. done.
    + by rewrite HM.
Qed.

Lemma upsert_lookup (A : gmap field (list string)) (M : gmap string string)
    (c n : string) :
  upsert A M c n !! c
  = keep_shorter (bool_decide (is_Some (A !! Some c))) (M !! c) n.
Proof.
  unfold upsert, keep_shorter. destruct (M !! c) as [old|] eqn:HM.
  - destruct (_ <? _)%nat; [apply lookup_insert_eq|done].
  - destruct (bool_decide _); [apply lookup_insert_eq|done].
Qed.

Lemma upsert_lookup_ne (A : gmap field (list string)) (M : gmap string string)
    (c c' n : string) :
  c ≠ c' → upsert A M c n !! c' = M !! c'.
Proof.
  intros Hne. unfold upsert.
  by repeat case_match; rewrite ?lookup_insert_ne by done.
Qed.

(** The shape of a record that gets past the guard. *)
Lemma commands_body_Ok (A : gmap field (list string)) (M M' : gmap string string)
    (r : list field) :
  commands_body A M r = Ok M' →
  ∃ pl cmd node desc, r = [pl; cmd; node; desc] ∧
    ((truthy cmd && truthy node = false ∧ M' = M) ∨
     (∃ c n, cmd = Some c ∧ node = Some n ∧ c ≠ "" ∧ n ≠ "" ∧ M' = upsert A M c n)).
Proof.
  intros Hb.
  assert (List.length r = 4) as Hlen.
  { destruct (decide (List.length r = 4)) as [|Hne]; [done|].
    by rewrite commands_body_short in Hb. }
  destruct r as [|pl [|cmd [|node [|desc [|]]]]]; try done.
  exists pl, cmd, node, desc. split; [done|].
  destruct (truthy cmd && truthy node) eqn:Ht.
  - right. apply andb_true_iff in Ht as [Hc Hn].
    apply truthy_Some in Hc as (c & -> & Hc).
    apply truthy_Some in Hn as (n & -> & Hn).
    rewrite commands_body_upsert in Hb by done. injection Hb as <-.
    by exists c, n.
  - left. rewrite commands_body_skip in Hb by done. by injection Hb as <-.
Qed.

Lemma nodes_for_cons (c : string) (r : list field) (perms : list (list field)) :
  nodes_for c (r :: perms) = nodes_for c [r] ++ nodes_for c perms.
Proof. unfold nodes_for. simpl. by case_match. Qed.

Lemma nodes_for_skip (c : string) (pl cmd node desc : field) :
  c ≠ "" → truthy cmd && truthy node = false →
  nodes_for c [[pl; cmd; node; desc]] = [].
Proof.
  intros Hc Ht. unfold nodes_for. simpl.
  destruct cmd as [c'|]; [|done]. destruct node as [n|]; [|done].
  simpl in Ht. destruct (bool_decide (c' = c)) eqn:Hcc; [|done].
  apply bool_decide_eq_true in Hcc as ->.
  apply String.eqb_neq in Hc. rewrite Hc in Ht. simpl in Ht. by rewrite Ht.
Qed.

Lemma nodes_for_record (c c' n : string) (pl desc : field) :
  n ≠ "" →
  nodes_for c [[pl; Some c'; Some n; desc]] = if bool_decide (c' = c) then [n] else [].
Proof.
  intros Hn. unfold nodes_for. simpl. apply String.eqb_neq in Hn. rewrite Hn.
  by destruct (bool_decide (c' = c)).
Qed.

(** The entry of a command after the loop, from its entry before and the
    nodes of its records. *)
Lemma for_each_commands_lookup (A : gmap field (list string))
    (perms : list (list field)) (M0 M : gmap string string) (c : string) :
  c ≠ "" →
  for_each (commands_body A) M0 perms = Ok M →
  M !! c = foldl (keep_shorter (bool_decide (is_Some (A !! Some c))))
                 (M0 !! c) (nodes_for c perms).
Proof.
  intros Hc. revert M0. induction perms as [|r perms IH]; intros M0.
  - by intros [= <-].
  - cbn [for_each].
    destruct (commands_body A M0 r) as [M1|] eqn:Hb; [|done]. intros HM.
    rewrite nodes_for_cons, foldl_app, (IH _ HM). f_equal.
    apply commands_body_Ok in Hb
      as (pl & cmd & node & desc & -> & [[Ht ->]|(c' & n & -> & -> & Hc' & Hn & ->)]).
    + by rewrite nodes_for_skip.
    + rewrite nodes_for_record by done.
      destruct (decide (c' = c)) as [->|Hne].
      * rewrite (bool_decide_eq_true_2 (c = c)) by done. apply upsert_lookup.
      * rewrite (bool_decide_eq_false_2 (c' = c)) by done.
        by apply upsert_lookup_ne.
Qed.

(** Keys only enter the map through the gate on the alias index. *)
Lemma commands_body_known (A : gmap field (list string)) (M M' : gmap string string)
    (r : list field) :
  (∀ c, is_Some (M !! c) → c ≠ "" ∧ is_Some (A !! Some c)) →
  commands_body A M r = Ok M' →
  ∀ c, is_Some (M' !! c) → c ≠ "" ∧ is_Some (A !! Some c).
Proof.
  intros Hinv Hb c.
  apply commands_body_Ok in Hb
    as (pl & cmd & node & desc & -> & [[Ht ->]|(c' & n & -> & -> & Hc' & Hn & ->)]);
    [apply Hinv|].
  destruct (decide (c' = c)) as [->|Hne]; [|by rewrite upsert_lookup_ne; auto].
  rewrite upsert_lookup. unfold keep_shorter.
  destruct (M !! c) as [old|] eqn:HM.
  - intros _. apply Hinv. by rewrite HM.
  - case_bool_decide; [done|]. by intros [? ?].
Qed.

Lemma for_each_commands_known (A : gmap field (list string))
    (perms : list (list field)) (M : gmap string string) :
  for_each (commands_body A) ∅ perms = Ok M →
  ∀ c, is_Some (M !! c) → c ≠ "" ∧ is_Some (A !! Some c).
Proof.
  apply (for_each_inv (λ M, ∀ c, is_Some (M !! c) → c ≠ "" ∧ is_Some (A !! Some c))).
  - intros M1 r M2. apply commands_body_known.
  - intros c. rewrite lookup_empty. by intros [? ?].
Qed.

Lemma foldl_keep_shorter_Some (known : bool) (cur best : string) (ns : list string) :
  foldl (keep_shorter known) (Some cur) ns = Some best →
  (best = cur ∧ ∀ n, n ∈ ns → (String.length cur ≤ String.length n)%nat) ∨
  (∃ pre post, ns = pre ++ best :: post ∧
     (String.length best < String.length cur)%nat ∧
     (∀ n, n ∈ pre → (String.length best < String.length n)%nat) ∧
     (∀ n, n ∈ post → (String.length best ≤ String.length n)%nat)).
Proof.
  revert cur. induction ns as [|n ns IH]; intros cur; simpl.
  - intros [= <-]. left. split; [done|]. intros n Hn. by apply elem_of_nil in Hn.
  - destruct (Nat.ltb_spec (String.length n) (String.length cur)) as [Hlt|Hge];
      intros Hf; apply IH in Hf
        as [[-> Hall]|(pre & post & -> & Hb & Hpre & Hpost)].
    + right. exists [], ns. by repeat split; [|intros ? ?%elem_of_nil|].
    + right. exists (n :: pre), post. repeat split; [lia| |done].
      intros m [->|Hm]%elem_of_cons; [done|by apply Hpre].
    + left. split; [done|]. intros m [->|Hm]%elem_of_cons; [done|by apply Hall].
    + right. exists (n :: pre), post. repeat split; [done| |done].
      intros m [->|Hm]%elem_of_cons; [lia|by apply Hpre].
Qed.

Lemma foldl_keep_shorter_is_Some (known : bool) (cur : string) (ns : list string) :
  is_Some (foldl (keep_shorter known) (Some cur) ns).
Proof.
  revert cur. induction ns as [|n ns IH]; intros cur; simpl; [by eexists|].
  by destruct (_ <? _)%nat.
Qed.

(** Of the nodes of a known command the first of the least length stays. *)
Lemma foldl_keep_shorter_first (best : string) (ns : list string) :
  foldl (keep_shorter true) None ns = Some best →
  ∃ pre post, ns = pre ++ best :: post ∧
    (∀ n, n ∈ pre → (String.length best < String.length n)%nat) ∧
    (∀ n, n ∈ post → (String.length best ≤ String.length n)%nat).
Proof.
  destruct ns as [|n ns]; [done|]. simpl. intros Hf.
  apply foldl_keep_shorter_Some in Hf
    as [[-> Hall]|(pre & post & -> & Hb & Hpre & Hpost)].
  - exists [], ns. by repeat split; [intros ? ?%elem_of_nil|].
  - exists (n :: pre), post. repeat split; [|done].
    intros m [->|Hm]%elem_of_cons; [done|by apply Hpre].
Qed.

(** ** The output loop *)

Lemma elem_of_keys (M : gmap string string) (c : string) :
  c ∈ keys M ↔ is_Some (M !! c).
Proof.
  unfold keys. rewrite list_elem_of_fmap. split.
  - intros ([c' n] & -> & Hin). apply elem_of_map_to_list in Hin. by eexists.
  - intros [n Hn]. exists (c, n). split; [done|]. by apply elem_of_map_to_list.
Qed.

Lemma group_order (node : string) (elems order : list string) :
  set_iteration elems order → group node order = group node (remove_dups elems).
Proof. intros H. unfold group. by rewrite (set_iteration_sorted _ _ H). Qed.

Lemma emits_emit (A : gmap field (list string)) (M : gmap string string)
    (cmds : list string) (o : outcome) :
  emits A M cmds o → o = emit A M cmds.
Proof.
  induction 1 as [|cmd cmds HM|cmd cmds node HM HA
                  |cmd cmds node al order rest HM HA Hset Hrest IH]; simpl.
  - done.
  - by rewrite HM.
  - by rewrite HM, HA.
  - by rewrite HM, HA, <-IH, (group_order _ _ _ Hset).
Qed.

Lemma emit_emits (A : gmap field (list string)) (M : gmap string string)
    (cmds : list string) :
  emits A M cmds (emit A M cmds).
Proof.
  induction cmds as [|cmd cmds IH]; simpl; [constructor|].
  destruct (M !! cmd) as [node|] eqn:HM; [|by constructor].
  destruct (A !! Some cmd) as [al|] eqn:HA; [|by econstructor].
  econstructor; [done..|apply set_iteration_remove_dups|done].
Qed.

(** Every order of iteration gives the outcome of [run]. *)
Lemma executes_run (i : input) (o : outcome) : executes i o ↔ o = run i.
Proof.
  unfold run. split.
  - intros [e He|A e HA He|A M order o' HA HM Hset Hem].
    + by rewrite He.
    + by rewrite HA, He.
    + rewrite HA, HM. apply emits_emit in Hem.
      by rewrite (set_iteration_sorted _ _ Hset) in Hem.
  - intros ->. destruct (build_aliases (commands_json i)) as [A|e] eqn:HA;
      [|by constructor].
    destruct (build_commands A (permissions_json i)) as [M|e] eqn:HM;
      [|by econstructor].
    eapply executes_output; [done..|apply set_iteration_remove_dups|].
    apply emit_emits.
Qed.

(** With every command in both maps the loop prints group after group. *)
Lemma emit_groups (A : gmap field (list string)) (M : gmap string string)
    (cmds : list string) :
  (∀ c, c ∈ cmds → is_Some (M !! c) ∧ is_Some (A !! Some c)) →
  emit A M cmds = Outcome (cmds ≫= λ c, lines_of (group_of A M c)) None.
Proof.
  induction cmds as [|cmd cmds IH]; intros Hall; simpl; [done|].
  destruct (Hall cmd) as [[node HM] [al HA]]; [by left|].
  rewrite HM, HA, IH by (intros c Hc; apply Hall; by right).
  unfold lines_of, group_of, group. simpl. by rewrite HM, HA.
Qed.

Lemma run_groups (i : input) (A : gmap field (list string)) (M : gmap string string) :
  build_aliases (commands_json i) = Ok A →
  build_commands A (permissions_json i) = Ok M →
  run i = Outcome (sorted (remove_dups (keys M)) ≫= λ c, lines_of (group_of A M c))
                  None.
Proof.
  intros HA HM. unfold run. rewrite HA, HM. apply emit_groups.
  intros c. rewrite elem_of_sorted, elem_of_remove_dups, elem_of_keys.
  intros Hc. split; [done|]. by apply (for_each_commands_known A _ M HM).
Qed.

Lemma run_no_output (i : input) :
  raised (run i) ≠ None → run i = Outcome [] (Some ValueError).
Proof.
  destruct (build_aliases (commands_json i)) as [A|e] eqn:HA.
  - destruct (build_commands A (permissions_json i)) as [M|e] eqn:HM.
    + by rewrite (run_groups i A M).
    + intros _. unfold run. rewrite HA, HM. do 2 f_equal.
      unfold build_commands in HM. revert HM.
      generalize (∅ : gmap string string).
      induction (permissions_json i) as [|r rs IH]; intros M0; simpl; [done|].
      destruct (commands_body A M0 r) eqn:Hb; [apply IH|].
      intros [= <-]. by apply commands_body_Raise in Hb.
  - intros _. unfold run. rewrite HA. do 2 f_equal.
    unfold build_aliases in HA. revert HA.
    generalize (∅ : gmap field (list string)).
    induction (commands_json i) as [|r rs IH]; intros A0; simpl; [done|].
    destruct (aliases_body A0 r) eqn:Hb; [apply IH|].
    intros [= <-]. by apply aliases_body_Raise in Hb.
Qed.

(** ** Groups of the output *)

Lemma elem_of_group_names (A : gmap field (list string)) (M : gmap string string)
    (cmd c : string) (al : list string) :
  A !! Some cmd = Some al →
  c ∈ block_names (group_of A M cmd) ↔ c = cmd ∨ c ∈ al.
Proof.
  intros HA. unfold group_of. cbn [block_names]. rewrite HA. cbn [default from_option id].
  by rewrite elem_of_sorted, elem_of_remove_dups, elem_of_cons.
Qed.

Lemma group_names_sorted (A : gmap field (list string)) (M : gmap string string)
    (cmd : string) :
  StronglySorted str_lt (block_names (group_of A M cmd)).
Proof. apply sorted_strict, NoDup_remove_dups. Qed.

Lemma elem_of_lines_of (g : block) (c node : string) :
  (c, node) ∈ lines_of g ↔ node = block_node g ∧ c ∈ block_names g.
Proof.
  unfold lines_of. rewrite list_elem_of_fmap. split.
  - by intros (c' & [= -> ->] & Hc).
  - intros [-> Hc]. by exists c.
Qed.

(** The group of a command of the map is one block of the output. *)
Lemma printed_group_block (i : input) (A : gmap field (list string))
    (M : gmap string string) (cmd : string) :
  build_aliases (commands_json i) = Ok A →
  build_commands A (permissions_json i) = Ok M →
  is_Some (M !! cmd) →
  ∃ pre post, printed (run i) = pre ++ lines_of (group_of A M cmd) ++ post.
Proof.
  intros HA HM Hcmd. rewrite (run_groups i A M HA HM). simpl.
  assert (cmd ∈ sorted (remove_dups (keys M))) as Hin
    by by rewrite elem_of_sorted, elem_of_remove_dups, elem_of_keys.
  apply list_elem_of_split in Hin as (l1 & l2 & ->).
  rewrite bind_app, bind_cons. eauto.
Qed.

Lemma elem_of_printed (i : input) (A : gmap field (list string))
    (M : gmap string string) (c node : string) :
  build_aliases (commands_json i) = Ok A →
  build_commands A (permissions_json i) = Ok M →
  (c, node) ∈ printed (run i) ↔
  ∃ cmd al, M !! cmd = Some node ∧ A !! Some cmd = Some al ∧ (c = cmd ∨ c ∈ al).
Proof.
  intros HA HM. rewrite (run_groups i A M HA HM). simpl.
  rewrite list_elem_of_bind. split.
  - intros (cmd & Hline & Hcmd).
    rewrite elem_of_sorted, elem_of_remove_dups, elem_of_keys in Hcmd.
    destruct Hcmd as [node' Hnode].
    destruct (for_each_commands_known A _ M HM cmd) as [_ [al Hal]]; [by eexists|].
    apply elem_of_lines_of in Hline as [-> Hc].
    rewrite (elem_of_group_names A M cmd c al Hal) in Hc.
    exists cmd, al. unfold group_of. simpl. by rewrite Hnode.
  - intros (cmd & al & Hnode & Hal & Hc). exists cmd. split.
    + apply elem_of_lines_of. rewrite (elem_of_group_names A M cmd c al Hal).
      unfold group_of. simpl. by rewrite Hnode.
    + rewrite elem_of_sorted, elem_of_remove_dups, elem_of_keys. by eexists.
Qed.

Lemma elem_of_nodes_for (c n : string) (pl desc : field) (perms : list (list field)) :
  [pl; Some c; Some n; desc] ∈ perms → n ≠ "" → n ∈ nodes_for c perms.
Proof.
  intros Hin Hn. unfold nodes_for. apply list_elem_of_omap.
  exists [pl; Some c; Some n; desc]. split; [done|].
  apply String.eqb_neq in Hn. by rewrite bool_decide_eq_true_2, Hn.
Qed.

Lemma nodes_for_Permutation (c : string) (perms perms' : list (list field)) :
  perms ≡ₚ perms' → nodes_for c perms ≡ₚ nodes_for c perms'.
Proof. intros Hp. unfold nodes_for. by rewrite Hp. Qed.

(** A known command with a node in the records has an entry. *)
Lemma build_commands_is_Some (A : gmap field (list string))
    (perms : list (list field)) (M : gmap string string) (c : string) :
  c ≠ "" → is_Some (A !! Some c) → nodes_for c perms ≠ [] →
  build_commands A perms = Ok M → is_Some (M !! c).
Proof.
  intros Hc HA Hnodes HM.
  rewrite (for_each_commands_lookup A perms ∅ M c Hc HM), lookup_empty.
  rewrite bool_decide_eq_true_2 by done.
  destruct (nodes_for c perms) as [|n ns]; [done|]. simpl.
  apply foldl_keep_shorter_is_Some.
Qed.

(** ** The node kept for a command *)

(** C1, as stated, fails: on the example of the specification the map
    does not hold the longest node of ["ban"]. *)
Lemma longest_node_not_kept :
  ¬ ∀ A M stored,
      build_aliases (commands_json spec_example) = Ok A →
      build_commands A (permissions_json spec_example) = Ok M →
      is_Some (A !! Some "ban") →
      M !! "ban" = Some stored →
      ∀ n, n ∈ nodes_for "ban" (permissions_json spec_example) →
           (String.length n ≤ String.length stored)%nat.
Proof.
  intros H.
  specialize (H {[Some "ban" := ["b"; "banish"]]} {["ban" := "mod.ban"]} "mod.ban").
  assert (String.length "group.mod.ban" ≤ String.length "mod.ban")%nat as Hle.
  { apply H; [by vm_compute|by vm_compute|by eexists; vm_compute|by vm_compute|].
    vm_compute. by left. }
  vm_compute in Hle. lia.
Qed.

(** C1, amended: for a non-empty command name of the alias index with at
    least one permission record with a non-empty node, the final map holds
    the shortest of these nodes, and of the shortest ones the first in the
    order of the records; in whatever order the records come, the node
    kept has this least length. *)
Theorem shortest_node_kept (ALIASES : gmap field (list string))
    (permissions : list (list field)) (commands : gmap string string) (c : string) :
  c ≠ "" →
  is_Some (ALIASES !! Some c) →
  nodes_for c permissions ≠ [] →
  build_commands ALIASES permissions = Ok commands →
  ∃ best pre post,
    commands !! c = Some best ∧
    nodes_for c permissions = pre ++ best :: post ∧
    (∀ n, n ∈ pre → (String.length best < String.length n)%nat) ∧
    (∀ n, n ∈ post → (String.length best ≤ String.length n)%nat) ∧
    (∀ permissions' commands',
       permissions ≡ₚ permissions' →
       build_commands ALIASES permissions' = Ok commands' →
       ∃ best', commands' !! c = Some best' ∧ String.length best' = String.length best).
Proof.
  intros Hc HA Hnodes HM.
  assert (∀ perms M best, build_commands ALIASES perms = Ok M → M !! c = Some best →
    ∃ pre post, nodes_for c perms = pre ++ best :: post ∧
      (∀ n, n ∈ pre → (String.length best < String.length n)%nat) ∧
      (∀ n, n ∈ post → (String.length best ≤ String.length n)%nat)) as Hfirst.
  { intros perms M best HM' Hbest. apply foldl_keep_shorter_first.
    rewrite (for_each_commands_lookup ALIASES perms ∅ M c Hc HM'), lookup_empty in Hbest.
    by rewrite bool_decide_eq_true_2 in Hbest. }
  assert (∀ best pre post ns, ns = pre ++ best :: post →
    (∀ n, n ∈ pre → (String.length best < String.length n)%nat) →
    (∀ n, n ∈ post → (String.length best ≤ String.length n)%nat) →
    ∀ n, n ∈ ns → (String.length best ≤ String.length n)%nat) as Hleast.
  { intros best pre post ns -> Hpre Hpost n.
    rewrite elem_of_app, elem_of_cons. intros [Hn|[->|Hn]]; [|done|by apply Hpost].
    apply Hpre in Hn. lia. }
  destruct (build_commands_is_Some ALIASES permissions commands c Hc HA Hnodes HM)
    as [best Hbest].
  destruct (Hfirst _ _ _ HM Hbest) as (pre & post & Hsplit & Hpre & Hpost).
  exists best, pre, post. repeat split; [done..|].
  intros perms' M' Hperm HM'.
  pose proof (nodes_for_Permutation c _ _ Hperm) as Hnp.
  assert (nodes_for c perms' ≠ []) as Hnodes'.
  { intros Hnil. rewrite Hnil in Hnp. by apply Permutation_nil_r in Hnp. }
  destruct (build_commands_is_Some ALIASES perms' M' c Hc HA Hnodes' HM')
    as [best' Hbest'].
  destruct (Hfirst _ _ _ HM' Hbest') as (pre' & post' & Hsplit' & Hpre' & Hpost').
  exists best'. split; [done|].
  assert (best ∈ nodes_for c perms') as Hin.
  { rewrite <-Hnp, Hsplit. set_solver. }
  assert (best' ∈ nodes_for c permissions) as Hin'.
  { rewrite Hnp, Hsplit'. set_solver. }
  apply (Hleast _ _ _ _ Hsplit' Hpre' Hpost') in Hin.
  apply (Hleast _ _ _ _ Hsplit Hpre Hpost) in Hin'. lia.
Qed.

Lemma shortest_node_kept_witness :
  ∃ best pre post,
    ({["ban" := "mod.ban"]} : gmap string string) !! "ban" = Some best ∧
    nodes_for "ban" (permissions_json spec_example) = pre ++ best :: post ∧
    (∀ n, n ∈ pre → (String.length best < String.length n)%nat) ∧
    (∀ n, n ∈ post → (String.length best ≤ String.length n)%nat) ∧
    (∀ permissions' commands',
       permissions_json spec_example ≡ₚ permissions' →
       build_commands {[Some "ban" := ["b"; "banish"]]} permissions' = Ok commands' →
       ∃ best', commands' !! "ban" = Some best' ∧ String.length best' = String.length best).
Proof.
  apply (shortest_node_kept {[Some "ban" := ["b"; "banish"]]}
           (permissions_json spec_example) {["ban" := "mod.ban"]} "ban").
  - done.
  - eexists. vm_compute. reflexivity.
  - vm_compute. discriminate.
  - vm_compute. reflexivity.
Defined.

(** ** The example of the specification *)

(** C2, as stated, fails: the three lines do not carry the longer node. *)
Lemma spec_example_not_longest :
  stdout (run spec_example)
  ≠ ["b = " +:+ dquote +:+ "group.mod.ban" +:+ dquote;
     "ban = " +:+ dquote +:+ "group.mod.ban" +:+ dquote;
     "banish = " +:+ dquote +:+ "group.mod.ban" +:+ dquote].
Proof. by vm_compute. Qed.

(** C2, amended: on the example of the specification the run completes
    and prints exactly three lines, for b, ban and banish in this order,
    each with the shorter node mod.ban. *)
Theorem spec_example_output :
  raised (run spec_example) = None ∧
  stdout (run spec_example)
  = ["b = " +:+ dquote +:+ "mod.ban" +:+ dquote;
     "ban = " +:+ dquote +:+ "mod.ban" +:+ dquote;
     "banish = " +:+ dquote +:+ "mod.ban" +:+ dquote].
Proof. by vm_compute. Qed.

(** ** Keys of the map *)

(** C4: after any number of permission records, every key of the
    command-to-node map is a key of the alias index. *)
Theorem commands_keys_in_alias_index (ALIASES : gmap field (list string))
    (permissions : list (list field)) (k : nat) (commands : gmap string string)
    (c : string) :
  build_commands ALIASES (take k permissions) = Ok commands →
  is_Some (commands !! c) → is_Some (ALIASES !! Some c).
Proof.
  intros HM Hc. by apply (for_each_commands_known ALIASES _ commands HM).
Qed.

Lemma commands_keys_in_alias_index_witness :
  is_Some (({[Some "ban" := ["b"; "banish"]]} : gmap field (list string)) !! Some "ban").
Proof.
  apply (commands_keys_in_alias_index {[Some "ban" := ["b"; "banish"]]}
           (permissions_json spec_example) 1 {["ban" := "group.mod.ban"]} "ban").
  - vm_compute. reflexivity.
  - eexists. vm_compute. reflexivity.
Defined.

(** ** Lines of a command and its aliases *)

(** C3, as stated, fails: a command with the empty name has an alias
    field and a permission record with a node, and no line. *)
Lemma empty_name_has_no_line :
  ¬ ∀ i pl C raw desc helpText pl' node desc',
      [pl; Some C; Some raw; desc; helpText] ∈ commands_json i → raw ≠ "" →
      [pl'; Some C; Some node; desc'] ∈ permissions_json i → node ≠ "" →
      ∃ n, (C, n) ∈ printed (run i).
Proof.
  intros H.
  destruct (H empty_name_example (Some "any") "" "x" (Some "desc") (Some "help")
              (Some "any") "node.x" (Some "desc")) as [n Hn];
    [by left|done|by left|done|].
  vm_compute in Hn. by apply elem_of_nil in Hn.
Qed.

(** C3, amended: for a command with a non-empty name C, a command record
    with a non-empty alias field and a permission record with a non-empty
    node, a completed run prints one block of lines whose names are C and
    the aliases stored for C, each name once, all with the node of C. *)
Theorem command_and_aliases_share_node (i : input)
    (ALIASES : gmap field (list string)) (commands : gmap string string)
    (pl desc helpText pl' desc' : field) (C raw n : string) :
  build_aliases (commands_json i) = Ok ALIASES →
  build_commands ALIASES (permissions_json i) = Ok commands →
  C ≠ "" →
  [pl; Some C; Some raw; desc; helpText] ∈ commands_json i → raw ≠ "" →
  [pl'; Some C; Some n; desc'] ∈ permissions_json i → n ≠ "" →
  ∃ al node names pre post,
    ALIASES !! Some C = Some al ∧
    commands !! C = Some node ∧
    printed (run i) = pre ++ ((λ c, (c, node)) <$> names) ++ post ∧
    NoDup names ∧
    (∀ c, c ∈ names ↔ c = C ∨ c ∈ al) ∧
    (C, node) ∈ printed (run i) ∧
    (∀ a, a ∈ al → (a, node) ∈ printed (run i)).
Proof.
  intros HA HM HC Hrec Hraw Hperm Hn.
  assert (is_Some (ALIASES !! Some C)) as [al Hal].
  { apply (build_aliases_known _ _ _ HA). eexists. split; [done|].
    apply stores_aliases_true. by repeat eexists. }
  assert (is_Some (commands !! C)) as [node Hnode].
  { apply (build_commands_is_Some ALIASES (permissions_json i)); [done|by eexists| |done].
    intros Hnil. apply (elem_of_nodes_for C n pl' desc') in Hperm; [|done].
    rewrite Hnil in Hperm. by apply elem_of_nil in Hperm. }
  destruct (printed_group_block i ALIASES commands C HA HM) as (pre & post & Hpr);
    [by eexists|].
  exists al, node, (block_names (group_of ALIASES commands C)), pre, post.
  split; [done|]. split; [done|]. split.
  { rewrite Hpr. unfold lines_of, group_of. cbn [block_node block_names].
    by rewrite Hnode. }
  split; [apply StronglySorted_str_lt_NoDup, group_names_sorted|].
  split; [intros c; by apply elem_of_group_names|].
  split.
  - apply (elem_of_printed i ALIASES commands C node HA HM). exists C, al. auto.
  - intros a Ha. apply (elem_of_printed i ALIASES commands a node HA HM).
    exists C, al. auto.
Qed.

Lemma command_and_aliases_share_node_witness :
  ∃ al node names pre post,
    ({[Some "ban" := ["b"; "banish"]]} : gmap field (list string)) !! Some "ban"
      = Some al ∧
    ({["ban" := "mod.ban"]} : gmap string string) !! "ban" = Some node ∧
    printed (run spec_example) = pre ++ ((λ c, (c, node)) <$> names) ++ post ∧
    NoDup names ∧
    (∀ c, c ∈ names ↔ c = "ban" ∨ c ∈ al) ∧
    ("ban", node) ∈ printed (run spec_example) ∧
    (∀ a, a ∈ al → (a, node) ∈ printed (run spec_example)).
Proof.
  apply (command_and_aliases_share_node spec_example
           {[Some "ban" := ["b"; "banish"]]} {["ban" := "mod.ban"]}
           (Some "any") (Some "desc") (Some "help") (Some "any") (Some "desc")
           "ban" "b, banish" "mod.ban").
  - vm_compute. reflexivity.
  - vm_compute. reflexivity.
  - discriminate.
  - simpl. left.
  - discriminate.
  - simpl. right. left.
  - discriminate.
Defined.

(** ** Order of the output *)

(** C5: the output of a completed run is a sequence of groups, one per
    key of the map, in strictly ascending order of the command names;
    the names of a group are the command and its aliases, in strictly
    ascending order and so each once, all with the node of the command. *)
Theorem output_grouped_and_sorted (i : input)
    (ALIASES : gmap field (list string)) (commands : gmap string string) :
  build_aliases (commands_json i) = Ok ALIASES →
  build_commands ALIASES (permissions_json i) = Ok commands →
  ∃ groups : list block,
    printed (run i) = groups ≫= lines_of ∧
    StronglySorted str_lt (block_cmd <$> groups) ∧
    (∀ cmd, cmd ∈ block_cmd <$> groups ↔ is_Some (commands !! cmd)) ∧
    Forall (λ g, commands !! block_cmd g = Some (block_node g) ∧
                 StronglySorted str_lt (block_names g) ∧ NoDup (block_names g) ∧
                 ∃ al, ALIASES !! Some (block_cmd g) = Some al ∧
                       ∀ c, c ∈ block_names g ↔ c = block_cmd g ∨ c ∈ al) groups.
Proof.
  intros HA HM.
  exists (group_of ALIASES commands <$> sorted (remove_dups (keys commands))).
  assert (block_cmd <$> (group_of ALIASES commands <$> sorted (remove_dups (keys commands)))
          = sorted (remove_dups (keys commands))) as Hcmds.
  { rewrite <-list_fmap_compose. apply list_fmap_id. }
  rewrite Hcmds. split; [|split; [|split]].
  - rewrite (run_groups i ALIASES commands HA HM). simpl.
    generalize (sorted (remove_dups (keys commands))).
    induction l as [|c l IH]; [done|]. rewrite fmap_cons, !bind_cons. by f_equal.
  - apply sorted_strict, NoDup_remove_dups.
  - intros cmd. by rewrite elem_of_sorted, elem_of_remove_dups, elem_of_keys.
  - apply Forall_fmap, Forall_forall. intros cmd Hcmd.
    rewrite elem_of_sorted, elem_of_remove_dups, elem_of_keys in Hcmd.
    destruct Hcmd as [node Hnode].
    destruct (for_each_commands_known ALIASES _ commands HM cmd) as [_ [al Hal]];
      [by eexists|].
    simpl. split; [by rewrite Hnode|].
    split; [apply (group_names_sorted ALIASES commands cmd)|].
    split; [apply StronglySorted_str_lt_NoDup, (group_names_sorted ALIASES commands cmd)|].
    exists al. split; [done|]. intros c.
    apply (elem_of_group_names ALIASES commands cmd c al Hal).
Qed.

Lemma output_grouped_and_sorted_witness :
  ∃ groups : list block,
    printed (run shared_name_example) = groups ≫= lines_of ∧
    StronglySorted str_lt (block_cmd <$> groups) ∧
    (∀ cmd, cmd ∈ block_cmd <$> groups ↔
       is_Some (({["teleport" := "warp.teleport"]} : gmap string string) !! cmd)) ∧
    Forall (λ g, ({["teleport" := "warp.teleport"]} : gmap string string) !! block_cmd g
                   = Some (block_node g) ∧
                 StronglySorted str_lt (block_names g) ∧ NoDup (block_names g) ∧
                 ∃ al, ({[Some "teleport" := ["tp"]]} : gmap field (list string))
                         !! Some (block_cmd g) = Some al ∧
                       ∀ c, c ∈ block_names g ↔ c = block_cmd g ∨ c ∈ al) groups.
Proof.
  apply (output_grouped_and_sorted shared_name_example
           {[Some "teleport" := ["tp"]]} {["teleport" := "warp.teleport"]}).
  - vm_compute. reflexivity.
  - vm_compute. reflexivity.
Defined.

(** ** Commands without aliases *)

(** C6, as stated, fails: a command with an empty alias field is named on
    a line when it is an alias of another command. *)
Lemma aliasless_command_named_in_output :
  ¬ ∀ i pl C raw desc helpText,
      [pl; Some C; raw; desc; helpText] ∈ commands_json i → truthy raw = false →
      (∀ r, r ∈ commands_json i → stores_aliases (Some C) r = false) →
      ∀ node, (C, node) ∉ printed (run i).
Proof.
  intros H.
  apply (H shared_name_example (Some "any") "tp" (Some "") (Some "desc") (Some "help"))
    with (node := "warp.teleport").
  - by left.
  - done.
  - intros r Hr. simpl in Hr. repeat (apply elem_of_cons in Hr as [->|Hr]; [done|]).
    by apply elem_of_nil in Hr.
  - vm_compute. right. left.
Qed.

(** C6, amended: a command none of whose records has a non-empty alias
    field never enters the map, whatever the permission records, and has
    no group of its own; a line names it only inside the group of another
    command that lists it as an alias, with the node of that command. *)
Theorem aliasless_command_has_no_group (i : input)
    (ALIASES : gmap field (list string)) (commands : gmap string string) (C : string) :
  build_aliases (commands_json i) = Ok ALIASES →
  build_commands ALIASES (permissions_json i) = Ok commands →
  (∀ r, r ∈ commands_json i → stores_aliases (Some C) r = false) →
  ALIASES !! Some C = None ∧
  commands !! C = None ∧
  ∀ node, (C, node) ∈ printed (run i) →
    ∃ D al, D ≠ C ∧ commands !! D = Some node ∧ ALIASES !! Some D = Some al ∧ C ∈ al.
Proof.
  intros HA HM Hno.
  assert (ALIASES !! Some C = None) as HC.
  { apply eq_None_not_Some. rewrite (build_aliases_known _ _ _ HA).
    intros (r & Hr & Hs). apply Hno in Hr. congruence. }
  assert (commands !! C = None) as HMC.
  { apply eq_None_not_Some. intros Hsome.
    apply (for_each_commands_known ALIASES _ commands HM) in Hsome as [_ [al Hal]].
    congruence. }
  split; [done|]. split; [done|]. intros node Hline.
  apply (elem_of_printed i ALIASES commands C node HA HM) in Hline
    as (D & al & HD & Hal & Hc).
  exists D, al. destruct Hc as [->|Hc]; [congruence|].
  repeat split; [|done..]. intros ->. congruence.
Qed.

Lemma aliasless_command_has_no_group_witness :
  ({[Some "teleport" := ["tp"]]} : gmap field (list string)) !! Some "tp" = None ∧
  ({["teleport" := "warp.teleport"]} : gmap string string) !! "tp" = None ∧
  ∀ node, ("tp", node) ∈ printed (run shared_name_example) →
    ∃ D al, D ≠ "tp" ∧
      ({["teleport" := "warp.teleport"]} : gmap string string) !! D = Some node ∧
      ({[Some "teleport" := ["tp"]]} : gmap field (list string)) !! Some D = Some al ∧
      "tp" ∈ al.
Proof.
  apply (aliasless_command_has_no_group shared_name_example
           {[Some "teleport" := ["tp"]]} {["teleport" := "warp.teleport"]} "tp").
  - vm_compute. reflexivity.
  - vm_compute. reflexivity.
  - intros r Hr. simpl in Hr. repeat (apply elem_of_cons in Hr as [->|Hr]; [done|]).
    by apply elem_of_nil in Hr.
Defined.

(** ** The alias index *)

(** C7: the alias index maps a command name to the alias field of the
    last record of that name with a non-empty alias field, split at the
    commas (the pieces, joined by commas, give the field back, and none
    holds a comma) and each piece trimmed, in order and with repeats. *)
Theorem alias_index_last_record (pre post : list (list field))
    (pl cmd desc helpText : field) (raw : string)
    (ALIASES : gmap field (list string)) :
  raw ≠ "" →
  (∀ r, r ∈ post → stores_aliases cmd r = false) →
  build_aliases (pre ++ [pl; cmd; Some raw; desc; helpText] :: post) = Ok ALIASES →
  ALIASES !! cmd = Some (strip <$> split "," raw) ∧
  join "," (split "," raw) = raw ∧
  Forall (λ piece, occurs "," piece = false) (split "," raw).
Proof.
  intros Hraw Hpost HA. split; [|split].
  - by apply (build_aliases_last pre post pl cmd desc helpText raw).
  - apply join_split.
  - apply split_no_sep.
Qed.

Lemma alias_index_last_record_witness :
  (<[Some "kick" := ["k"]]> {[Some "ban" := ["x"; "b"; "b"; ""]]}
     : gmap field (list string)) !! Some "ban"
    = Some (strip <$> split "," " x ,b, b,") ∧
  join "," (split "," " x ,b, b,") = " x ,b, b," ∧
  Forall (λ piece, occurs "," piece = false) (split "," " x ,b, b,").
Proof.
  apply (alias_index_last_record
           [[Some "any"; Some "ban"; Some "old"; Some "desc"; Some "help"]]
           [[Some "any"; Some "ban"; None; Some "desc"; Some "help"];
            [Some "any"; Some "kick"; Some "k"; Some "desc"; Some "help"]]
           (Some "any") (Some "ban") (Some "desc") (Some "help") " x ,b, b,"
           (<[Some "kick" := ["k"]]> {[Some "ban" := ["x"; "b"; "b"; ""]]})).
  - discriminate.
  - intros r Hr. repeat (apply elem_of_cons in Hr as [->|Hr]; [done|]).
    by apply elem_of_nil in Hr.
  - vm_compute. reflexivity.
Defined.

(** ** Iteration order *)

(** C8: two runs on the same input give the same outcome, and so the
    same text, in whatever order the sets of each run iterate. *)
Theorem output_deterministic (i : input) (o1 o2 : outcome) :
  executes i o1 → executes i o2 → o1 = o2 ∧ stdout o1 = stdout o2.
Proof.
  intros H1%executes_run H2%executes_run. by subst.
Qed.

Lemma output_deterministic_witness :
  Outcome (group "mod.ban" ["ban"; "b"; "banish"] ++ []) None
  = Outcome (group "mod.ban" ["banish"; "ban"; "b"] ++ []) None ∧
  stdout (Outcome (group "mod.ban" ["ban"; "b"; "banish"] ++ []) None)
  = stdout (Outcome (group "mod.ban" ["banish"; "ban"; "b"] ++ []) None).
Proof.
  assert (∀ order, set_iteration ["ban"; "b"; "banish"] order →
            executes spec_example (Outcome (group "mod.ban" order ++ []) None))
    as Hexec.
  { intros order Horder.
    apply (executes_output spec_example {[Some "ban" := ["b"; "banish"]]}
             {["ban" := "mod.ban"]} ["ban"]).
    - vm_compute. reflexivity.
    - vm_compute. reflexivity.
    - split; [apply NoDup_singleton|]. vm_compute. reflexivity.
    - change (sorted ["ban"]) with ["ban"].
      apply (emits_group _ _ "ban" [] "mod.ban" ["b"; "banish"] order (Outcome [] None));
        [vm_compute; reflexivity|vm_compute; reflexivity|done|constructor]. }
  apply (output_deterministic spec_example).
  - apply Hexec. split; [by apply (bool_decide_unpack _); vm_compute|].
    vm_compute. reflexivity.
  - apply Hexec. split; [by apply (bool_decide_unpack _); vm_compute|].
    vm_compute. reflexivity.
Defined.

(** ** Records of the wrong arity *)

(** C9: when a command record has fewer than five fields or a permission
    record fewer than four, the run ends with the error of tuple
    unpacking and has printed nothing. *)
Theorem short_record_aborts (i : input) :
  (∃ r, r ∈ commands_json i ∧ List.length r < 5) ∨
  (∃ r, r ∈ permissions_json i ∧ List.length r < 4) →
  run i = Outcome [] (Some ValueError).
Proof.
  intros Hshort. apply run_no_output. unfold run.
  destruct (build_aliases (commands_json i)) as [A|e] eqn:HA; [|done].
  destruct (build_commands A (permissions_json i)) as [M|e] eqn:HM; [|done].
  exfalso. destruct Hshort as [(r & Hr & Hlen)|(r & Hr & Hlen)].
  - unfold build_aliases in HA.
    rewrite (for_each_Raise aliases_body ValueError _ _ r) in HA; [done| | |done].
    + intros s r' e'. apply aliases_body_Raise.
    + intros s. apply aliases_body_short. lia.
  - unfold build_commands in HM.
    rewrite (for_each_Raise (commands_body A) ValueError _ _ r) in HM; [done| | |done].
    + intros s r' e'. apply commands_body_Raise.
    + intros s. apply commands_body_short. lia.
Qed.

Lemma short_record_aborts_witness :
  run (Input (commands_json spec_example)
             [[Some "any"; Some "ban"; Some "mod.ban"; Some "desc"];
              [Some "any"; Some "ban"; Some "group.mod.ban"]])
  = Outcome [] (Some ValueError).
Proof.
  apply short_record_aborts. right.
  exists [Some "any"; Some "ban"; Some "group.mod.ban"]. split.
  - simpl. right. left.
  - simpl. lia.
Defined.

(** ** Blank aliases *)

(** C10, as stated, fails: a record with a blank alias field is followed
    by a record of the same name with the alias k; the stored list is
    that of the later record and no line has the empty name. *)
Lemma blank_alias_overridden :
  ¬ ∀ i pl C raw desc helpText ALIASES commands node,
      [pl; Some C; Some raw; desc; helpText] ∈ commands_json i →
      raw ≠ "" → blank_or_commas raw = true →
      build_aliases (commands_json i) = Ok ALIASES →
      build_commands ALIASES (permissions_json i) = Ok commands →
      commands !! C = Some node →
      (∃ al, ALIASES !! Some C = Some al ∧ "" ∈ al) ∧
      ("", node) ∈ printed (run i).
Proof.
  intros H.
  destruct (H overridden_blank_example (Some "any") "kick" " " (Some "desc")
              (Some "help") {[Some "kick" := ["k"]]} {["kick" := "mod.kick"]}
              "mod.kick") as [_ Hline].
  - by left.
  - discriminate.
  - reflexivity.
  - vm_compute. reflexivity.
  - vm_compute. reflexivity.
  - vm_compute. reflexivity.
  - vm_compute in Hline.
    repeat (apply elem_of_cons in Hline as [[=]|Hline]).
    by apply elem_of_nil in Hline.
Qed.

(** C10, amended: when the last record of a command with a non-empty
    alias field, the one whose alias list is stored, holds only white
    space and commas there, or more generally has a piece between commas
    that is white space only (as in "a,"), the stored alias list holds
    the empty string (and nothing else in the first case), and if the
    command has a node the output has a line with the empty name, which
    starts with the space before the equals sign. *)
Theorem blank_alias_prints_empty_name (i : input)
    (ALIASES : gmap field (list string)) (commands : gmap string string)
    (pre post : list (list field)) (pl desc helpText : field) (C raw node : string) :
  commands_json i = pre ++ [pl; Some C; Some raw; desc; helpText] :: post →
  (∀ r, r ∈ post → stores_aliases (Some C) r = false) →
  raw ≠ "" →
  blank_or_commas raw = true ∨ Exists (λ piece, blank piece = true) (split "," raw) →
  build_aliases (commands_json i) = Ok ALIASES →
  build_commands ALIASES (permissions_json i) = Ok commands →
  commands !! C = Some node →
  ∃ al, ALIASES !! Some C = Some al ∧
        "" ∈ al ∧
        (blank_or_commas raw = true → ∀ a, a ∈ al → a = "") ∧
        ("", node) ∈ printed (run i) ∧
        (" = " +:+ dquote +:+ node +:+ dquote) ∈ stdout (run i).
Proof.
  intros Hcmds Hpost Hraw Hblank HA HM Hnode.
  pose proof HA as Hal. rewrite Hcmds in Hal.
  apply build_aliases_last in Hal; [|done..].
  assert ("" ∈ alias_list raw) as Hin.
  { destruct Hblank as [Hblank|Hpiece].
    - destruct (alias_list_blank raw Hblank) as [Hnil Hall].
      destruct (alias_list raw) as [|a al] eqn:Hl; [done|].
      rewrite (Hall a) by by left. by left.
    - apply Exists_exists in Hpiece as (piece & Hpiece & Hb).
      unfold alias_list. apply list_elem_of_fmap. exists piece.
      by rewrite strip_blank. }
  assert (("", node) ∈ printed (run i)) as Hline.
  { apply (elem_of_printed i ALIASES commands "" node HA HM).
    exists C, (alias_list raw). auto. }
  exists (alias_list raw). split; [done|]. split; [done|]. split.
  { intros Hb. by apply alias_list_blank. }
  split; [done|].
  unfold stdout. apply list_elem_of_fmap. by exists ("", node).
Qed.

Lemma blank_alias_prints_empty_name_witness :
  (∃ al, ({[Some "kick" := [""]]} : gmap field (list string)) !! Some "kick" = Some al ∧
        "" ∈ al ∧
        (blank_or_commas " " = true → ∀ a, a ∈ al → a = "") ∧
        ("", "mod.kick") ∈ printed (run blank_alias_example) ∧
        (" = " +:+ dquote +:+ "mod.kick" +:+ dquote) ∈ stdout (run blank_alias_example)) ∧
  (∃ al, ({[Some "kick" := ["a"; ""]]} : gmap field (list string)) !! Some "kick"
           = Some al ∧
        "" ∈ al ∧
        (blank_or_commas "a," = true → ∀ a, a ∈ al → a = "") ∧
        ("", "mod.kick") ∈ printed (run trailing_comma_example) ∧
        (" = " +:+ dquote +:+ "mod.kick" +:+ dquote)
          ∈ stdout (run trailing_comma_example)).
Proof.
  split.
  - apply (blank_alias_prints_empty_name blank_alias_example
             {[Some "kick" := [""]]} {["kick" := "mod.kick"]} [] []
             (Some "any") (Some "desc") (Some "help") "kick" " " "mod.kick").
    + reflexivity.
    + intros r Hr. by apply elem_of_nil in Hr.
    + discriminate.
    + left. reflexivity.
    + vm_compute. reflexivity.
    + vm_compute. reflexivity.
    + vm_compute. reflexivity.
  - apply (blank_alias_prints_empty_name trailing_comma_example
             {[Some "kick" := ["a"; ""]]} {["kick" := "mod.kick"]} [] []
             (Some "any") (Some "desc") (Some "help") "kick" "a," "mod.kick").
    + reflexivity.
    + intros r Hr. by apply elem_of_nil in Hr.
    + discriminate.
    + right. simpl. apply Exists_cons_tl, Exists_cons_hd. reflexivity.
    + vm_compute. reflexivity.
    + vm_compute. reflexivity.
    + vm_compute. reflexivity.
Defined.

(** ** Further properties of the loops *)

Lemma for_each_Ok_Forall {S R : Type} (P : R → Prop) (body : S → R → result S)
    (st st' : S) (rs : list R) :
  (∀ s r s', body s r = Ok s' → P r) →
  for_each body st rs = Ok st' → Forall P rs.
Proof.
  intros HP. revert st. induction rs as [|r rs IH]; intros st; simpl; [by constructor|].
  destruct (body st r) as [st1|] eqn:Hb; [|done]. intros Hrs.
  constructor; [by eapply HP|by eapply IH].
Qed.

Lemma for_each_total {S R : Type} (P : R → Prop) (body : S → R → result S)
    (st : S) (rs : list R) :
  (∀ s r, P r → ∃ s', body s r = Ok s') →
  Forall P rs → ∃ st', for_each body st rs = Ok st'.
Proof.
  intros HP Hall. revert st. induction Hall as [|r rs Hr Hrs IH]; intros st; simpl.
  - by eexists.
  - destruct (HP st r Hr) as [st1 ->]. apply IH.
Qed.


Lemma commands_body_arity (A : gmap field (list string)) (M : gmap string string)
    (r : list field) :
  List.length r = 4 ↔ ∃ M', commands_body A M r = Ok M'.
Proof.
  split.
  - intros Hlen. destruct r as [|pl [|cmd [|node [|desc [|]]]]]; try done.
    unfold commands_body. by repeat case_match; eexists.
  - intros [M' Hb]. destruct (decide (List.length r = 4)) as [|Hne]; [done|].
    by rewrite commands_body_short in Hb.
Qed.

Lemma for_each_commands_known_from (A : gmap field (list string))
    (perms : list (list field)) (M0 M : gmap string string) :
  (∀ c, is_Some (M0 !! c) → c ≠ "" ∧ is_Some (A !! Some c)) →
  for_each (commands_body A) M0 perms = Ok M →
  ∀ c, is_Some (M !! c) → c ≠ "" ∧ is_Some (A !! Some c).
Proof.
  intros H0.
  apply (for_each_inv (λ M, ∀ c, is_Some (M !! c) → c ≠ "" ∧ is_Some (A !! Some c)));
    [|done].
  intros M1 r M2. apply commands_body_known.
Qed.

Lemma foldl_keep_shorter_unknown (ns : list string) :
  foldl (keep_shorter false) None ns = None.
Proof. by induction ns. Qed.

Lemma foldl_keep_shorter_stable (known : bool) (cur : string) (ns : list string) :
  (∀ n, n ∈ ns → (String.length cur ≤ String.length n)%nat) →
  foldl (keep_shorter known) (Some cur) ns = Some cur.
Proof.
  induction ns as [|n ns IH]; intros Hall; simpl; [done|].
  destruct (Nat.ltb_spec (String.length n) (String.length cur)) as [Hlt|Hge].
  - specialize (Hall n (list_elem_of_here _ _)). lia.
  - apply IH. intros m Hm. apply Hall. by right.
Qed.

Lemma foldl_keep_shorter_twice (known : bool) (ns : list string) :
  foldl (keep_shorter known) (foldl (keep_shorter known) None ns) ns
  = foldl (keep_shorter known) None ns.
Proof.
  destruct known.
  - destruct (foldl (keep_shorter true) None ns) as [best|] eqn:Hf.
    + apply foldl_keep_shorter_first in Hf as (pre & post & -> & Hpre & Hpost).
      apply foldl_keep_shorter_stable. intros n.
      rewrite elem_of_app, elem_of_cons. intros [Hn|[->|Hn]]; [|done|by apply Hpost].
      apply Hpre in Hn. lia.
    + done.
  - by rewrite !foldl_keep_shorter_unknown.
Qed.

Lemma elem_of_nodes_for_inv (c n : string) (perms : list (list field)) :
  n ∈ nodes_for c perms →
  ∃ pl desc, [pl; Some c; Some n; desc] ∈ perms ∧ n ≠ "".
Proof.
  unfold nodes_for. intros (r & Hr & Hsome)%list_elem_of_omap.
  destruct r as [|pl [|[c'|] [|[n'|] [|desc [|]]]]]; try done.
  destruct (bool_decide (c' = c)) eqn:Hc; [|done].
  destruct (String.eqb n' "") eqn:Hn; [done|]. simpl in Hsome.
  injection Hsome as ->. apply bool_decide_eq_true in Hc as ->.
  apply String.eqb_neq in Hn. eauto.
Qed.

Lemma occurs_append (a : ascii) (s t : string) :
  occurs a (s +:+ t) = occurs a s || occurs a t.
Proof.
  induction s as [|b s IH]; [done|]. rewrite append_cons. simpl.
  by rewrite IH, orb_assoc.
Qed.

Lemma occurs_strip (a : ascii) (s : string) :
  occurs a s = false → occurs a (strip s) = false.
Proof.
  destruct (strip_spec s) as (l & r & Hs & _). intros Ho. rewrite Hs in Ho.
  rewrite !occurs_append in Ho. by destruct (occurs a l), (occurs a (strip s)).
Qed.

Lemma strip_strip (s : string) : strip (strip s) = strip s.
Proof.
  destruct (strip_spec s) as (l & r & _ & _ & _ & Hl & Hr).
  unfold strip at 1. by rewrite Hl, Hr.
Qed.

Lemma split_no_occurrence (sep : ascii) (p : string) :
  occurs sep p = false → split sep p = [p].
Proof.
  induction p as [|a p IH]; simpl; [done|].
  intros [Ha Hp]%orb_false_iff. by rewrite Ha, IH.
Qed.

Lemma split_append_sep (sep : ascii) (p t : string) :
  occurs sep p = false → split sep (p +:+ String sep t) = p :: split sep t.
Proof.
  induction p as [|a p IH]; intros Hp.
  - change ("" +:+ String sep t) with (String sep t). simpl.
    by rewrite Ascii.eqb_refl.
  - simpl in Hp. apply orb_false_iff in Hp as [Ha Hp].
    rewrite append_cons. cbn [split]. by rewrite Ha, IH.
Qed.

(** Splitting the joined pieces gives the pieces back. *)
Lemma split_join (sep : ascii) (ps : list string) :
  ps ≠ [] → Forall (λ p, occurs sep p = false) ps → split sep (join sep ps) = ps.
Proof.
  induction ps as [|p ps IH]; [done|]. intros _ [Hp Hps]%Forall_cons.
  destruct ps as [|q ps]; [by apply split_no_occurrence|].
  rewrite join_cons by done. rewrite split_append_sep by done.
  by rewrite IH.
Qed.

Lemma alias_list_clean (raw : string) :
  alias_list raw ≠ [] ∧
  Forall (λ a, occurs "," a = false ∧ strip a = a) (alias_list raw).
Proof.
  unfold alias_list. split.
  - intros Hnil%fmap_nil_inv. by apply split_not_nil in Hnil.
  - apply Forall_fmap. eapply Forall_impl; [apply (split_no_sep "," raw)|].
    intros p Hp. simpl. split; [by apply occurs_strip|apply strip_strip].
Qed.

Lemma lstrip_length (s : string) : (String.length (lstrip s) ≤ String.length s)%nat.
Proof.
  induction s as [|a s IH]; simpl; [done|]. destruct (isspace a); simpl; lia.
Qed.

Lemma rstrip_length (s : string) : (String.length (rstrip s) ≤ String.length s)%nat.
Proof.
  induction s as [|a s IH]; simpl; [done|].
  destruct (rstrip s); [destruct (isspace a)|]; simpl in *; lia.
Qed.

Lemma rstrip_snoc_space (s : string) (ch : ascii) :
  isspace ch = true → rstrip (s +:+ String ch "") = rstrip s.
Proof.
  intros Hch. induction s as [|b s IH].
  - change ("" +:+ String ch "") with (String ch ""). simpl. by rewrite Hch.
  - rewrite append_cons. cbn [rstrip]. by rewrite IH.
Qed.

Lemma length_append (s t : string) :
  String.length (s +:+ t) = (String.length s + String.length t)%nat.
Proof. induction s as [|a s IH]; [done|]. rewrite append_cons. simpl. by rewrite IH. Qed.

(** A string that trimming leaves alone has no white space at its ends. *)
Lemma strip_fixed_ends (a : string) :
  strip a = a →
  (∀ ch rest, a = String ch rest → isspace ch = false) ∧
  (∀ ch rest, a = rest +:+ String ch "" → isspace ch = false).
Proof.
  intros Hfix.
  destruct (strip_spec a) as (l & r & _ & _ & _ & Hl & Hr). rewrite Hfix in Hl, Hr.
  split; intros ch rest ->; apply not_true_is_false; intros Hch.
  - simpl in Hl. rewrite Hch in Hl. pose proof (lstrip_length rest) as Hlen.
    rewrite Hl in Hlen. simpl in Hlen. lia.
  - rewrite rstrip_snoc_space in Hr by done. pose proof (rstrip_length rest) as Hlen.
    rewrite Hr, length_append in Hlen. simpl in Hlen. lia.
Qed.

Lemma split_length (sep : ascii) (s : string) :
  List.length (split sep s) = S (count_char sep s).
Proof.
  induction s as [|a s IH]; simpl; [done|].
  destruct (Ascii.eqb a sep); simpl; [by rewrite IH|].
  pose proof (split_not_nil sep s) as Hnil.
  destruct (split sep s); [done|]. simpl in *. lia.
Qed.

(** ** Completion and errors *)



(** X2: the subscripts [commands[cmd]] and [ALIASES[cmd]] of the output
    loop never fail: no run ends with a missing key. *)
Theorem output_loop_never_KeyError (i : input) :
  raised (run i) ≠ Some KeyError.
Proof.
  intros Hr. assert (raised (run i) ≠ None) as Hne by by rewrite Hr.
  apply run_no_output in Hne. by rewrite Hne in Hr.
Qed.

(** X11: with no command records or no permission records nothing is
    printed. *)
Theorem empty_input_prints_nothing (i : input) :
  commands_json i = [] ∨ permissions_json i = [] → printed (run i) = [].
Proof.
  intros Hempty.
  destruct (raised (run i)) as [e|] eqn:Hnone;
    [by rewrite (run_no_output i) by by rewrite Hnone|].
  destruct (build_aliases (commands_json i)) as [A|e] eqn:HA;
    [|by unfold run in Hnone; rewrite HA in Hnone].
  destruct (build_commands A (permissions_json i)) as [M|e] eqn:HM;
    [|by unfold run in Hnone; rewrite HA, HM in Hnone].
  destruct (printed (run i)) as [|[c node] rest] eqn:Hp; [done|]. exfalso.
  assert ((c, node) ∈ printed (run i)) as Hin by (rewrite Hp; by left).
  apply (elem_of_printed i A M c node HA HM) in Hin as (cmd & al & Hnode & Hal & _).
  destruct Hempty as [Hc|Hperm].
  - rewrite Hc in HA. injection HA as <-. by rewrite lookup_empty in Hal.
  - rewrite Hperm in HM. injection HM as <-. by rewrite lookup_empty in Hnode.
Qed.

Lemma empty_input_prints_nothing_witness :
  printed (run (Input [] (permissions_json spec_example))) = [] ∧
  printed (run (Input (commands_json spec_example) [])) = [].
Proof.
  split.
  - apply empty_input_prints_nothing. left. reflexivity.
  - apply empty_input_prints_nothing. right. reflexivity.
Defined.

(** ** More on the alias index *)

(** X3: a name is a key of the alias index exactly when some command
    record of that name has a non-empty alias field. *)
Theorem alias_index_membership (cmds : list (list field)) (cmd : field)
    (ALIASES : gmap field (list string)) :
  build_aliases cmds = Ok ALIASES →
  is_Some (ALIASES !! cmd) ↔
  ∃ pl raw desc helpText, [pl; cmd; Some raw; desc; helpText] ∈ cmds ∧ raw ≠ "".
Proof.
  intros HA. rewrite (build_aliases_known cmds cmd ALIASES HA). split.
  - intros (r & Hr & (pl & raw & desc & helpText & -> & Hraw)%stores_aliases_true).
    by exists pl, raw, desc, helpText.
  - intros (pl & raw & desc & helpText & Hr & Hraw). eexists. split; [done|].
    apply stores_aliases_true. by repeat eexists.
Qed.

Lemma alias_index_membership_witness :
  is_Some (({[Some "teleport" := ["tp"]]} : gmap field (list string)) !! Some "tp") ↔
  ∃ pl raw desc helpText,
    [pl; Some "tp"; Some raw; desc; helpText] ∈ commands_json shared_name_example ∧
    raw ≠ "".
Proof.
  apply (alias_index_membership (commands_json shared_name_example) (Some "tp")
           {[Some "teleport" := ["tp"]]}).
  vm_compute. reflexivity.
Defined.

(** X4: every alias list of the index has at least one alias, and no
    alias holds a comma or starts or ends with white space. *)
Theorem stored_aliases_clean (cmds : list (list field)) (cmd : field)
    (ALIASES : gmap field (list string)) (al : list string) :
  build_aliases cmds = Ok ALIASES →
  ALIASES !! cmd = Some al →
  al ≠ [] ∧
  Forall (λ a, occurs "," a = false ∧
               (∀ ch rest, a = String ch rest → isspace ch = false) ∧
               (∀ ch rest, a = rest +:+ String ch "" → isspace ch = false)) al.
Proof.
  intros HA Hal.
  assert (∃ raw, al = alias_list raw) as [raw ->].
  { revert cmd al Hal. unfold build_aliases in HA.
    apply (for_each_inv (λ A : gmap field (list string),
             ∀ cmd al, A !! cmd = Some al → ∃ raw, al = alias_list raw)
             aliases_body ∅ ALIASES cmds); [|by intros ? ?; rewrite lookup_empty|done].
    intros A r A' Hinv Hb cmd al. unfold aliases_body in Hb.
    destruct r as [|pl [|cmd' [|raw [|desc [|helpText [|]]]]]]; try done.
    destruct (truthy raw); [|injection Hb as <-; apply Hinv].
    destruct raw as [raw|]; [|injection Hb as <-; apply Hinv]. injection Hb as <-.
    destruct (decide (cmd' = cmd)) as [->|Hne].
    - rewrite lookup_insert_eq. intros [= <-]. eauto.
    - rewrite lookup_insert_ne by done. apply Hinv. }
  destruct (alias_list_clean raw) as [Hnil Hall]. split; [done|].
  eapply Forall_impl; [done|]. intros a [Hcomma Hfix]. split; [done|].
  by apply strip_fixed_ends.
Qed.

Lemma stored_aliases_clean_witness :
  ["b"; "banish"] ≠ [] ∧
  Forall (λ a, occurs "," a = false ∧
               (∀ ch rest, a = String ch rest → isspace ch = false) ∧
               (∀ ch rest, a = rest +:+ String ch "" → isspace ch = false))
         ["b"; "banish"].
Proof.
  apply (stored_aliases_clean (commands_json spec_example) (Some "ban")
           {[Some "ban" := ["b"; "banish"]]}).
  - vm_compute. reflexivity.
  - vm_compute. reflexivity.
Defined.

(** X5: an alias list written back with commas and read again is the
    same list. *)
Theorem alias_list_round_trip (raw : string) :
  alias_list (join "," (alias_list raw)) = alias_list raw.
Proof.
  destruct (alias_list_clean raw) as [Hnil Hall].
  unfold alias_list at 1. rewrite split_join; [|done|].
  - apply list_eq_Forall2, Forall2_fmap_l, Forall_Forall2_diag.
    eapply Forall_impl; [done|]. by intros a [_ Hfix].
  - eapply Forall_impl; [done|]. by intros a [Hcomma _].
Qed.

(** X6: an alias field with k commas gives k + 1 aliases. *)
Theorem alias_list_length (raw : string) :
  List.length (alias_list raw) = S (count_char "," raw).
Proof. unfold alias_list. by rewrite length_fmap, split_length. Qed.

(** ** More on the command-to-node map *)

(** X7: every entry of the map comes from a permission record: the key is
    a non-empty command name of the alias index and the node is the
    non-empty node of a record of that command. *)
Theorem stored_node_from_record (ALIASES : gmap field (list string))
    (permissions : list (list field)) (commands : gmap string string) (c n : string) :
  build_commands ALIASES permissions = Ok commands →
  commands !! c = Some n →
  c ≠ "" ∧ n ≠ "" ∧ is_Some (ALIASES !! Some c) ∧
  ∃ pl desc, [pl; Some c; Some n; desc] ∈ permissions.
Proof.
  intros HM Hn.
  destruct (for_each_commands_known ALIASES _ commands HM c) as [Hc HA]; [by eexists|].
  rewrite (for_each_commands_lookup ALIASES permissions ∅ commands c Hc HM),
    lookup_empty, bool_decide_eq_true_2 in Hn by done.
  apply foldl_keep_shorter_first in Hn as (pre & post & Hsplit & _).
  destruct (elem_of_nodes_for_inv c n permissions) as (pl & desc & Hr & Hne).
  { rewrite Hsplit. set_solver. }
  eauto 10.
Qed.

Lemma stored_node_from_record_witness :
  "ban" ≠ "" ∧ "mod.ban" ≠ "" ∧
  is_Some (({[Some "ban" := ["b"; "banish"]]} : gmap field (list string)) !! Some "ban") ∧
  ∃ pl desc, [pl; Some "ban"; Some "mod.ban"; desc] ∈ permissions_json spec_example.
Proof.
  apply (stored_node_from_record {[Some "ban" := ["b"; "banish"]]}
           (permissions_json spec_example) {["ban" := "mod.ban"]}).
  - vm_compute. reflexivity.
  - vm_compute. reflexivity.
Defined.

(** X8: reading the permission records twice in a row gives the same map
    (or the same error) as reading them once. *)
Theorem build_commands_twice (ALIASES : gmap field (list string))
    (permissions : list (list field)) :
  build_commands ALIASES (permissions ++ permissions)
  = build_commands ALIASES permissions.
Proof.
  unfold build_commands. rewrite for_each_app.
  destruct (for_each (commands_body ALIASES) ∅ permissions) as [M1|e] eqn:HM1; [|done].
  pose proof (for_each_Ok_Forall (λ r, List.length r = 4) _ _ _ _
    (λ M r M' Hb, proj2 (commands_body_arity ALIASES M r) (ex_intro _ M' Hb)) HM1)
    as Harity.
  destruct (for_each_total _ (commands_body ALIASES) M1 permissions
              (λ M r, proj1 (commands_body_arity ALIASES M r)) Harity) as [M2 HM2].
  rewrite HM2. f_equal. apply map_eq. intros c.
  pose proof (for_each_commands_known ALIASES _ M1 HM1) as Hk1.
  pose proof (for_each_commands_known_from ALIASES _ M1 M2 Hk1 HM2) as Hk2.
  destruct (decide (c = "")) as [->|Hc].
  - transitivity (@None string); [|symmetry]; apply eq_None_not_Some.
    + intros H. by destruct (Hk2 "" H).
    + intros H. by destruct (Hk1 "" H).
  - rewrite (for_each_commands_lookup ALIASES permissions M1 M2 c Hc HM2).
    rewrite (for_each_commands_lookup ALIASES permissions ∅ M1 c Hc HM1), lookup_empty.
    apply foldl_keep_shorter_twice.
Qed.

(** X9: further permission records never remove an entry of the map and
    never make its node longer. *)
Theorem more_records_never_lengthen (ALIASES : gmap field (list string))
    (permissions more : list (list field)) (commands commands' : gmap string string)
    (c n : string) :
  build_commands ALIASES permissions = Ok commands →
  build_commands ALIASES (permissions ++ more) = Ok commands' →
  commands !! c = Some n →
  ∃ n', commands' !! c = Some n' ∧ (String.length n' ≤ String.length n)%nat.
Proof.
  unfold build_commands. rewrite for_each_app. intros -> HM' Hn.
  revert HM'.
  apply (for_each_inv (λ M : gmap string string,
           ∃ n', M !! c = Some n' ∧ (String.length n' ≤ String.length n)%nat));
    [|by exists n].
  intros M r M1 (n1 & Hn1 & Hlen) Hb.
  apply commands_body_Ok in Hb
    as (pl & cmd & node & desc & -> & [[_ ->]|(c0 & n0 & -> & -> & _ & _ & ->)]);
    [by exists n1|].
  destruct (decide (c0 = c)) as [->|Hne];
    [|exists n1; by rewrite upsert_lookup_ne].
  rewrite upsert_lookup, Hn1. simpl.
  destruct (Nat.ltb_spec (String.length n0) (String.length n1)).
  - exists n0. split; [done|lia].
  - by exists n1.
Qed.

Lemma more_records_never_lengthen_witness :
  ∃ n', ({["ban" := "mod.ban"]} : gmap string string) !! "ban" = Some n' ∧
        (String.length n' ≤ String.length "group.mod.ban")%nat.
Proof.
  apply (more_records_never_lengthen {[Some "ban" := ["b"; "banish"]]}
           [[Some "any"; Some "ban"; Some "group.mod.ban"; Some "desc"]]
           [[Some "any"; Some "ban"; Some "mod.ban"; Some "desc"]]
           {["ban" := "group.mod.ban"]} {["ban" := "mod.ban"]} "ban" "group.mod.ban").
  - vm_compute. reflexivity.
  - vm_compute. reflexivity.
  - vm_compute. reflexivity.
Defined.

(** X10: permission records with a null or empty command or node, and
    records of commands outside the alias index, can be left out: the map
    (or the error) is the same without them. *)
Theorem ignored_records_removable (ALIASES : gmap field (list string))
    (permissions : list (list field)) :
  build_commands ALIASES (filter (λ r, ignored ALIASES r = false) permissions)
  = build_commands ALIASES permissions.
Proof.
  unfold build_commands.
  assert (∀ M0, (∀ c, is_Some (M0 !! c) → c ≠ "" ∧ is_Some (ALIASES !! Some c)) →
    for_each (commands_body ALIASES) M0
      (filter (λ r, ignored ALIASES r = false) permissions)
    = for_each (commands_body ALIASES) M0 permissions) as Hgen.
  { induction permissions as [|r perms IH]; intros M0 Hinv; [done|].
    rewrite filter_cons. destruct (decide (ignored ALIASES r = false)) as [Hkeep|Hdrop].
    - cbn [for_each]. destruct (commands_body ALIASES M0 r) as [M1|e] eqn:Hb; [|done].
      apply IH. by apply (commands_body_known ALIASES M0 M1 r).
    - apply not_false_is_true in Hdrop. cbn [for_each].
      assert (commands_body ALIASES M0 r = Ok M0) as ->; [|by apply IH].
      unfold ignored in Hdrop.
      destruct r as [|pl [|cmd [|node [|desc [|]]]]]; try done.
      destruct (truthy cmd && truthy node) eqn:Ht;
        [|by apply commands_body_skip].
      simpl in Hdrop. apply negb_true_iff, bool_decide_eq_false in Hdrop.
      apply andb_true_iff in Ht as [(c & -> & Hc)%truthy_Some (n & -> & Hn)%truthy_Some].
      rewrite commands_body_upsert by done. f_equal. unfold upsert.
      destruct (M0 !! c) as [old|] eqn:Hold.
      + destruct (Hinv c) as [_ HA]; [by eexists|done].
      + by rewrite bool_decide_eq_false_2. }
  apply Hgen. intros c. rewrite lookup_empty. by intros [? ?].
Qed.

(** X13: the node of a command depends on the permission records of that
    command alone: two record lists with the same nodes for it, in the
    same order, give it the same entry. *)
Theorem node_depends_on_own_records (ALIASES : gmap field (list string))
    (permissions permissions' : list (list field))
    (commands commands' : gmap string string) (c : string) :
  c ≠ "" →
  nodes_for c permissions = nodes_for c permissions' →
  build_commands ALIASES permissions = Ok commands →
  build_commands ALIASES permissions' = Ok commands' →
  commands !! c = commands' !! c.
Proof.
  intros Hc Hnodes HM HM'.
  rewrite (for_each_commands_lookup ALIASES permissions ∅ commands c Hc HM).
  rewrite (for_each_commands_lookup ALIASES permissions' ∅ commands' c Hc HM').
  by rewrite Hnodes.
Qed.

Lemma node_depends_on_own_records_witness :
  ({["ban" := "mod.ban"]} : gmap string string) !! "ban"
  = ({["ban" := "mod.ban"]} : gmap string string) !! "ban".
Proof.
  apply (node_depends_on_own_records {[Some "ban" := ["b"; "banish"]]}
           (permissions_json spec_example)
           ([Some "any"; Some "kick"; Some "mod.kick"; Some "desc"]
              :: permissions_json spec_example)
           {["ban" := "mod.ban"]} {["ban" := "mod.ban"]} "ban").
  - discriminate.
  - vm_compute. reflexivity.
  - vm_compute. reflexivity.
  - vm_compute. reflexivity.
Defined.

(** ** The printed pairs *)

(** X12: a completed run prints the pair of a name and a node exactly
    when some command of the map has this node and the name is that
    command or one of the aliases stored for it. *)
Theorem printed_iff (i : input) (ALIASES : gmap field (list string))
    (commands : gmap string string) (c node : string) :
  build_aliases (commands_json i) = Ok ALIASES →
  build_commands ALIASES (permissions_json i) = Ok commands →
  (c, node) ∈ printed (run i) ↔
  ∃ cmd al, commands !! cmd = Some node ∧ ALIASES !! Some cmd = Some al ∧
            (c = cmd ∨ c ∈ al).
Proof.
  intros HA HM. split.
  - intros Hin. by apply (elem_of_printed i ALIASES commands c node HA HM).
  - intros Hgroup. by apply (elem_of_printed i ALIASES commands c node HA HM).
Qed.

Lemma printed_iff_witness :
  ("tp", "warp.teleport") ∈ printed (run shared_name_example) ↔
  ∃ cmd al,
    ({["teleport" := "warp.teleport"]} : gmap string string) !! cmd
      = Some "warp.teleport" ∧
    ({[Some "teleport" := ["tp"]]} : gmap field (list string)) !! Some cmd = Some al ∧
    ("tp" = cmd ∨ "tp" ∈ al).
Proof.
  apply (printed_iff shared_name_example {[Some "teleport" := ["tp"]]}
           {["teleport" := "warp.teleport"]}).
  - vm_compute. reflexivity.
  - vm_compute. reflexivity.
Defined.
